(** * pyQME: Redfield rates, relaxation tensor and dephasing

    A shallow embedding of [pyQME/tensors/markov/redfield.py] (class
    [RedfieldTensor]) and the properties its specification states.

    Conventions of the embedding.

    - numpy's [float64] and [complex128] entries are read as exact numbers
      of one field [C] with a conjugation (any [numClosedFieldType]); a real
      array is an array over [C].  Rounding is therefore not modelled: an
      equation proved here holds in the program up to floating-point error.
    - an [ndarray] is a nested [seq]; the arrays the methods build are
      tabulated over their shape, whose exciton axes all have length
      [self.dim].  Operands are taken well shaped, as the eigenbasis provider
      delivers them; where numpy would reject an ill-shaped operand the
      embedding reads [0] and says nothing about the program.
    - an attribute that the class creates lazily ([GammF], [dephasing], ...)
      is an [option]: [None] is [hasattr(self, ...) == False].
    - methods run in a small state-and-error monad over the instance and a
      log of the calls made to the spectral-density evaluator. *)

From HB Require Import structures.
From mathcomp Require Import ssreflect ssrfun ssrbool eqtype ssrnat seq bigop.
From mathcomp Require Import ssralg ssrnum algC.

Set Implicit Arguments.
Unset Strict Implicit.
Unset Printing Implicit Defensive.

Import GRing.Theory Num.Theory.
Local Open Scope ring_scope.

(** ** Arrays *)

Section Arrays.

Variable C : numClosedFieldType.

Definition vector := seq C.
Definition matrix := seq vector.
Definition tensor3 := seq matrix.
Definition tensor4 := seq tensor3.

(** Indexing, [v[a]], [M[a,b]], ... *)
Definition at1 (v : vector) a : C := nth 0 v a.
Definition at2 (M : matrix) a b : C := at1 (nth [::] M a) b.
Definition at3 (T : tensor3) i a b : C := at2 (nth [::] T i) a b.
Definition at4 (G : tensor4) a b c d : C := at3 (nth [::] G a) b c d.

(** Tabulation of an array over its shape. *)
Definition mk1 n (f : nat -> C) : vector := mkseq f n.
Definition mk2 n m (f : nat -> nat -> C) : matrix :=
  mkseq (fun a => mk1 m (f a)) n.
Definition mk3 n m p (f : nat -> nat -> nat -> C) : tensor3 :=
  mkseq (fun i => mk2 m p (f i)) n.
Definition mk4 n (f : nat -> nat -> nat -> nat -> C) : tensor4 :=
  mkseq (fun a => mk3 n n n (f a)) n.

Definition has_shape1 n (v : vector) := size v == n.
Definition has_shape2 n m (M : matrix) :=
  (size M == n) && all (has_shape1 m) M.
Definition has_shape3 n m p (T : tensor3) :=
  (size T == n) && all (has_shape2 m p) T.
Definition has_shape4 n (G : tensor4) :=
  (size G == n) && all (has_shape3 n n n) G.

(** [np.zeros([n, n])], [np.zeros([n, n, n, n])], [np.eye(n)] *)
Definition zeros2 n : matrix := mk2 n n (fun _ _ => 0).
Definition zeros4 n : tensor4 := mk4 n (fun _ _ _ _ => 0).
Definition eye n : matrix := mk2 n n (fun a b => (a == b)%:R).

(** Elementwise operations on arrays of one shape. *)
Definition vadd n (v w : vector) : vector :=
  mk1 n (fun a => at1 v a + at1 w a).
Definition vsub n (v w : vector) : vector :=
  mk1 n (fun a => at1 v a - at1 w a).
Definition vopp (v : vector) : vector := [seq - x | x <- v].
Definition vscale (k : C) (v : vector) : vector := [seq k * x | x <- v].
Definition madd n (A B : matrix) : matrix :=
  mk2 n n (fun a b => at2 A a b + at2 B a b).
Definition tadd n (G H : tensor4) : tensor4 :=
  mk4 n (fun a b c d => at4 G a b c d + at4 H a b c d).
Definition tsub n (G H : tensor4) : tensor4 :=
  mk4 n (fun a b c d => at4 G a b c d - at4 H a b c d).

(** [A**2], [A/2], [G.conj()] *)
Definition msquare (A : matrix) : matrix :=
  [seq [seq x ^+ 2 | x <- r] | r <- A].
Definition mhalf (A : matrix) : matrix :=
  [seq [seq x / 2%:R | x <- r] | r <- A].
Definition mconj (A : matrix) : matrix := [seq [seq x^* | x <- r] | r <- A].
Definition tconj (G : tensor4) : tensor4 :=
  [seq [seq [seq [seq x^* | x <- r] | r <- M] | M <- T] | T <- G].

(** [A.T] of an [n] by [n] matrix *)
Definition transpose n (A : matrix) : matrix := mk2 n n (fun a b => at2 A b a).

(** [A[mask, ...]]: the slices of [A] at the positions listed in [mask].
    numpy raises an [IndexError] for a position past the last slice of [A];
    the embedding reads an empty slice there.  The two agree when every
    position is in range, which is so on the instances singled out by
    [well_formed] below: a mask lists positions of [SD_id_list], and [U] and
    [X] have one slice per entry of that list. *)
Definition take_rows (T : Type) (A : seq (seq T)) (mask : seq nat) :=
  [seq nth [::] A i | i <- mask].

(** [A[np.diag_indices_from(A)] = v] *)
Definition set_diag n (A : matrix) (v : vector) : matrix :=
  mk2 n n (fun a b => if a == b then at1 v a else at2 A a b).

(** [np.sum(A, axis=0)] *)
Definition sum_axis0 n (A : matrix) : vector :=
  mk1 n (fun a => \sum_(0 <= b < n) at2 A b a).

(** *** The contractions of the module, one per subscript string.  The
    site axis [i] runs over the rows of the masked operands. *)

(** ['ia,ib,ab->ab'] *)
Definition contract_ia_ib_ab n (A B W : matrix) : matrix :=
  mk2 n n (fun a b =>
    \sum_(0 <= i < size A) at2 A i a * at2 B i b * at2 W a b).

(** ['iab,icd,ba->abcd'] *)
Definition contract_iab_icd_ba n (A B : tensor3) (W : matrix) : tensor4 :=
  mk4 n (fun a b c d =>
    \sum_(0 <= i < size A) at3 A i a b * at3 B i c d * at2 W b a).

(** ['cabd->abcd'] and ['dbca->abcd'] *)
Definition contract_cabd n (G : tensor4) : tensor4 :=
  mk4 n (fun a b c d => at4 G c a b d).
Definition contract_dbca n (G : tensor4) : tensor4 :=
  mk4 n (fun a b c d => at4 G d b c a).

(** ['ckka->ac'] *)
Definition contract_ckka n (G : tensor4) : matrix :=
  mk2 n n (fun a c => \sum_(0 <= k < n) at4 G c k k a).

(** ['ac,bd->abcd'] *)
Definition contract_ac_bd n (A B : matrix) : tensor4 :=
  mk4 n (fun a b c d => at2 A a c * at2 B b d).

(** ['aaaa->a'] and ['abba->a'] *)
Definition contract_aaaa n (G : tensor4) : vector :=
  mk1 n (fun a => at4 G a a a a).
Definition contract_abba n (G : tensor4) : vector :=
  mk1 n (fun a => \sum_(0 <= b < n) at4 G a b b a).

(** ['iaa,iaa,aa->a'] *)
Definition contract_iaa_iaa_aa n (A B : tensor3) (W : matrix) : vector :=
  mk1 n (fun a =>
    \sum_(0 <= i < size A) at3 A i a a * at3 B i a a * at2 W a a).

(** ['iab,iba,ba->ab'] *)
Definition contract_iab_iba_ba n (A B : tensor3) (W : matrix) : matrix :=
  mk2 n n (fun a b =>
    \sum_(0 <= i < size A) at3 A i a b * at3 B i b a * at2 W b a).

(** ['ab->a'] *)
Definition contract_ab n (A : matrix) : vector :=
  mk1 n (fun a => \sum_(0 <= b < n) at2 A a b).

(** ['a,t->at'] *)
Definition contract_a_t (v t : vector) : matrix :=
  [seq [seq x * s | s <- t] | x <- v].

End Arrays.

(** ** The instance, its evaluator and the method monad *)

(** Local names of [_calc_redfield_dephasing] that are bound inside its
    loop only. *)
Inductive local_var := GammF_aaaa_var | GammF_abba_var.

(** Attributes that exist only once a method has stored them. *)
Inductive attribute := GammF_attr | dephasing_attr.

Inductive exn :=
  | UnboundLocalError of local_var
  | AttributeError of attribute.

Inductive result (A : Type) :=
  | Ok of A
  | Raise of exn.

Arguments Raise {A} e.

Section Model.

Variable C : numClosedFieldType.

(** Spectral-density identifiers: the entries of [SD_id_list]. *)
Variable ident : eqType.

(** The tolerance of the secular filter, which the specification leaves to
    the implementation. *)
Variable secular_tol : C.

Local Notation vector := (vector C).
Local Notation matrix := (matrix C).
Local Notation tensor3 := (tensor3 C).
Local Notation tensor4 := (tensor4 C).

(** The evaluator [self.specden]: its time grid and its [__call__], which
    maps a matrix of frequencies, an identifier and the [imag] flag to the
    matrix of bath responses. *)
Record SpectralDensity := {
  time : vector;
  sd_call : matrix -> ident -> bool -> matrix
}.

(** The attributes of an instance that the methods read or store.  The
    first eight are set by the constructor of the base class: the number of
    exciton states, their energies, the eigenvectors (site by exciton), the
    matrix of energy gaps, the projector tensor (site by exciton by
    exciton), the identifier of each site, the evaluator and the secular
    flag.  The last four are the ones that methods of this class store. *)
Record RedfieldTensor := {
  dim : nat;
  ene : vector;
  U : matrix;
  Om : matrix;
  X : tensor3;
  SD_id_list : seq ident;
  specden : SpectralDensity;
  secularize : bool;
  rates : option matrix;
  RTen : option tensor4;
  GammF : option tensor4;
  dephasing : option vector
}.

Definition set_rates (R : matrix) (o : RedfieldTensor) : RedfieldTensor :=
  {| dim := dim o; ene := ene o; U := U o; Om := Om o; X := X o;
     SD_id_list := SD_id_list o; specden := specden o;
     secularize := secularize o; rates := Some R; RTen := RTen o;
     GammF := GammF o; dephasing := dephasing o |}.

Definition set_RTen (R : tensor4) (o : RedfieldTensor) : RedfieldTensor :=
  {| dim := dim o; ene := ene o; U := U o; Om := Om o; X := X o;
     SD_id_list := SD_id_list o; specden := specden o;
     secularize := secularize o; rates := rates o; RTen := Some R;
     GammF := GammF o; dephasing := dephasing o |}.

Definition set_GammF (G : tensor4) (o : RedfieldTensor) : RedfieldTensor :=
  {| dim := dim o; ene := ene o; U := U o; Om := Om o; X := X o;
     SD_id_list := SD_id_list o; specden := specden o;
     secularize := secularize o; rates := rates o; RTen := RTen o;
     GammF := Some G; dephasing := dephasing o |}.

Definition set_dephasing (d : vector) (o : RedfieldTensor) : RedfieldTensor :=
  {| dim := dim o; ene := ene o; U := U o; Om := Om o; X := X o;
     SD_id_list := SD_id_list o; specden := specden o;
     secularize := secularize o; rates := rates o; RTen := RTen o;
     GammF := GammF o; dephasing := Some d |}.

(** One call [self.specden(freqs, SD_id=..., imag=...)]. *)
Record sd_event := SDCall {
  call_freqs : matrix;
  call_SD_id : ident;
  call_imag : bool
}.

(** What a method can read and change: the instance, and the calls made to
    the evaluator so far. *)
Record world := World {
  self_of : RedfieldTensor;
  sd_log : seq sd_event
}.

Definition M (A : Type) := world -> result (A * world).

Definition ret A (a : A) : M A := fun w => Ok (a, w).

Definition bind A B (m : M A) (f : A -> M B) : M B :=
  fun w => match m w with
           | Ok (a, w') => f a w'
           | Raise e => Raise e
           end.

Definition raise {A} (e : exn) : M A := fun _ => Raise e.

Notation "'let*' x ':=' m 'in' k" := (bind m (fun x => k))
  (at level 200, x pattern, m at level 100, k at level 200,
   right associativity).

Definition get_self : M RedfieldTensor := fun w => Ok (self_of w, w).

Definition update_self (f : RedfieldTensor -> RedfieldTensor) : M unit :=
  fun w => Ok (tt, World (f (self_of w)) (sd_log w)).

Definition call_specden (freqs : matrix) (SD_id : ident) (imag : bool)
  : M matrix :=
  fun w => Ok (sd_call (specden (self_of w)) freqs SD_id imag,
               World (self_of w) (rcons (sd_log w) (SDCall freqs SD_id imag))).

(** Reading a local that may not have been assigned yet. *)
Definition read_local A (x : local_var) (v : option A) : M A :=
  if v is Some a then ret a else raise (UnboundLocalError x).

(** Reading an attribute that may not have been stored yet. *)
Definition read_attr A (x : attribute) (v : option A) : M A :=
  if v is Some a then ret a else raise (AttributeError x).

(** [for i in l: s = body(s, i)] *)
Fixpoint for_each S I (body : S -> I -> M S) (s : S) (l : seq I) : M S :=
  match l with
  | [::] => ret s
  | i :: l' => let* s' := body s i in for_each body s' l'
  end.

(** [enumerate(l)] *)
Definition enumerate I (l : seq I) : seq (nat * I) := zip (iota 0 (size l)) l.

(** [[*set(l)]]: the distinct entries of [l].  Python does not fix the order
    in which a set is iterated; [undup] is one enumeration, and the sums
    below are shown not to depend on which one is taken.  The order in which
    the calls to the evaluator enter the log is the order of this
    enumeration, which need not be the interpreter's: [undup] keeps the last
    occurrence of each entry, so that [0, 1, 0] is enumerated as [1, 0],
    where CPython iterates the set as [0, 1].  A log is to be read up to the
    order of the identifiers. *)
Definition set_list (l : seq ident) : seq ident := undup l.

(** [[chrom_idx for chrom_idx, x in enumerate(SD_id_list) if x == SD_id]] *)
Definition mask_of (l : seq ident) (SD_id : ident) : seq nat :=
  [seq p.1 | p <- enumerate l & p.2 == SD_id].

(** ** The methods of [RedfieldTensor] *)

(** The body of the loop of [_calc_redfield_rates]. *)
Definition rates_step (o : RedfieldTensor) (coef2 : matrix)
    (R : matrix) (it : nat * ident) : M matrix :=
  let: (SD_idx, SD_id) := it in
  let* Cw_matrix := call_specden (transpose (dim o) (Om o)) SD_id false in
  let mask := mask_of (SD_id_list o) SD_id in
  ret (madd (dim o) R
         (contract_ia_ib_ab (dim o) (take_rows coef2 mask)
            (take_rows coef2 mask) Cw_matrix)).

(** The loop of [_calc_redfield_rates], entered with [rates] all zero. *)
Definition rates_loop (o : RedfieldTensor) (coef2 : matrix) : M matrix :=
  for_each (rates_step o coef2) (zeros2 C (dim o))
    (enumerate (set_list (SD_id_list o))).

Definition _calc_redfield_rates : M matrix :=
  let* o := get_self in
  let coef2 := msquare (U o) in
  let* R := rates_loop o coef2 in
  let R := set_diag (dim o) R (mk1 (dim o) (fun _ => 0)) in
  let R := set_diag (dim o) R (vopp (sum_axis0 (dim o) R)) in
  ret R.

(** [_calc_rates]: stores the rates. *)
Definition _calc_rates : M unit :=
  let* R := _calc_redfield_rates in
  update_self (set_rates R).

(** [_evaluate_SD_in_freq(self, SD_id)] *)
Definition _evaluate_SD_in_freq (SD_id : ident) : M matrix :=
  let* o := get_self in
  call_specden (transpose (dim o) (Om o)) SD_id true.

(** [_from_GammaF_to_RTen(self, GammF)] *)
Definition _from_GammaF_to_RTen (o : RedfieldTensor) (G : tensor4) : tensor4 :=
  let n := dim o in
  let R := tadd n (contract_cabd n G) (contract_dbca n (tconj G)) in
  let eye := eye C n in
  let tmpac := contract_ckka n G in
  tsub n R
    (tadd n (contract_ac_bd n eye (mconj tmpac))
            (contract_ac_bd n tmpac eye)).

(** Modelled from the spec: [_secularize] is inherited from the base class
    [RelTensorMarkov], whose source is not part of the module.  Section 4.2
    of the specification: the filter "zeroes every tensor element whose
    associated frequency combination (E_a - E_b) - (E_c - E_d) is non-zero
    outside a small numerical tolerance". *)
Definition _secularize (o : RedfieldTensor) (R : tensor4) : tensor4 :=
  let E := at1 (ene o) in
  mk4 (dim o) (fun a b c d =>
    if `|(E a - E b) - (E c - E d)| <= secular_tol
    then at4 R a b c d else 0).

(** The body of the loop of [_calc_redfield_tensor]. *)
Definition tensor_step (o : RedfieldTensor) (G : tensor4) (it : nat * ident)
  : M tensor4 :=
  let: (SD_idx, SD_id) := it in
  let* Cw_matrix := call_specden (transpose (dim o) (Om o)) SD_id true in
  let mask := mask_of (SD_id_list o) SD_id in
  ret (tadd (dim o) G
         (contract_iab_icd_ba (dim o) (take_rows (X o) mask)
            (take_rows (X o) mask) (mhalf Cw_matrix))).

(** The loop of [_calc_redfield_tensor], entered with [GammF] all zero. *)
Definition tensor_loop (o : RedfieldTensor) : M tensor4 :=
  for_each (tensor_step o) (zeros4 C (dim o))
    (enumerate (set_list (SD_id_list o))).

Definition _calc_redfield_tensor : M tensor4 :=
  let* o := get_self in
  let* G := tensor_loop o in
  let* _ := update_self (set_GammF G) in
  let* o := get_self in
  let R := _from_GammaF_to_RTen o G in
  if secularize o then ret (_secularize o R) else ret R.

(** [_calc_tensor]: stores the relaxation tensor. *)
Definition _calc_tensor : M unit :=
  let* R := _calc_redfield_tensor in
  update_self (set_RTen R).

(** The body of the loop of the second case of [_calc_redfield_dephasing];
    the loop carries the two locals [GammF_aaaa] and [GammF_abba], unbound
    ([None]) until the iteration of index 0 assigns them. *)
Definition dephasing_step (o : RedfieldTensor)
    (locals : option vector * option matrix) (it : nat * ident)
  : M (option vector * option matrix) :=
  let: (SD_idx, SD_id) := it in
  let n := dim o in
  let* Cw_matrix := call_specden (transpose n (Om o)) SD_id true in
  let mask := mask_of (SD_id_list o) SD_id in
  let Xm := take_rows (X o) mask in
  if SD_idx == 0%N then
    ret (Some (contract_iaa_iaa_aa n Xm Xm Cw_matrix),
         Some (contract_iab_iba_ba n Xm Xm Cw_matrix))
  else
    let* aaaa := read_local GammF_aaaa_var locals.1 in
    let aaaa := vadd n aaaa (contract_iaa_iaa_aa n Xm Xm Cw_matrix) in
    let* abba := read_local GammF_abba_var locals.2 in
    let abba := madd n abba (contract_iab_iba_ba n Xm Xm Cw_matrix) in
    ret (Some aaaa, Some abba).

(** Case 1 of [_calc_redfield_dephasing]: from the stored [GammF]. *)
Definition dephasing_full (o : RedfieldTensor) (G : tensor4) : vector :=
  let n := dim o in
  vopp (vsub n (contract_aaaa n G) (contract_abba n G)).

(** Case 2 of [_calc_redfield_dephasing]: from the eigenbasis, without the
    four-index tensor. *)
Definition dephasing_reduced (o : RedfieldTensor) : M vector :=
  let n := dim o in
  let* locals :=
    for_each (dephasing_step o) (None, None)
      (enumerate (set_list (SD_id_list o))) in
  let* aaaa := read_local GammF_aaaa_var locals.1 in
  let* abba := read_local GammF_abba_var locals.2 in
  ret (vscale (- (2%:R)^-1) (vsub n aaaa (contract_ab n abba))).

Definition _calc_redfield_dephasing : M vector :=
  let* o := get_self in
  if GammF o is Some G then ret (dephasing_full o G)
  else dephasing_reduced o.

(** [_calc_dephasing]: stores the dephasing vector. *)
Definition _calc_dephasing : M unit :=
  let* d := _calc_redfield_dephasing in
  update_self (set_dephasing d).

Definition calc_redf_xi : M matrix :=
  let* o := get_self in
  let* _ := (if dephasing o is None
             then let* d := _calc_redfield_dephasing in
                  update_self (set_dephasing d)
             else ret tt) in
  let* o := get_self in
  let* d := read_attr dephasing_attr (dephasing o) in
  ret (contract_a_t d (time (specden o))).

End Model.

(** ** Notions used to state the properties *)

Section Derived.

Variable C : numClosedFieldType.
Variable ident : eqType.

Local Notation matrix := (matrix C).
Local Notation RedfieldTensor := (RedfieldTensor C ident).

(** The frequency matrix handed to the evaluator, [self.Om.T].  The
    docstring of [_evaluate_SD_in_freq] gives its entry [a,b] as the gap
    [w_b - w_a]: it is the matrix that the specification calls [Om]. *)
Definition freqs_of (o : RedfieldTensor) : matrix := transpose (dim o) (Om o).

(** The evaluator's answer for one identifier,
    [self.specden(self.Om.T, SD_id=Z, imag=...)]. *)
Definition Cw_of (o : RedfieldTensor) (Z : ident) (imag : bool) : matrix :=
  sd_call (specden o) (freqs_of o) Z imag.

(** What one iteration of the loop of [_calc_redfield_rates] adds. *)
Definition rates_term (o : RedfieldTensor) (Z : ident) : matrix :=
  let mask := mask_of (SD_id_list o) Z in
  let coef2 := msquare (U o) in
  contract_ia_ib_ab (dim o) (take_rows coef2 mask) (take_rows coef2 mask)
    (Cw_of o Z false).

(** The calls that the loop of [_calc_redfield_rates] makes. *)
Definition rates_calls (o : RedfieldTensor) : seq (sd_event C ident) :=
  [seq SDCall (freqs_of o) Z false | Z <- set_list (SD_id_list o)].

(** The value of [rates] when the loop of [_calc_redfield_rates] ends. *)
Definition rates_accumulated (o : RedfieldTensor) : matrix :=
  foldl (fun R Z => madd (dim o) R (rates_term o Z))
    (zeros2 C (dim o)) (set_list (SD_id_list o)).

(** What one iteration of the loop of [_calc_redfield_tensor] adds. *)
Definition tensor_term (o : RedfieldTensor) (Z : ident) : tensor4 C :=
  let mask := mask_of (SD_id_list o) Z in
  contract_iab_icd_ba (dim o) (take_rows (X o) mask) (take_rows (X o) mask)
    (mhalf (Cw_of o Z true)).

(** The calls that the loop of [_calc_redfield_tensor] makes; the loop of
    [_calc_redfield_dephasing] makes the same ones. *)
Definition complex_calls (o : RedfieldTensor) : seq (sd_event C ident) :=
  [seq SDCall (freqs_of o) Z true | Z <- set_list (SD_id_list o)].

(** The value of [GammF] when the loop of [_calc_redfield_tensor] ends. *)
Definition GammF_accumulated (o : RedfieldTensor) : tensor4 C :=
  foldl (fun G Z => tadd (dim o) G (tensor_term o Z))
    (zeros4 C (dim o)) (set_list (SD_id_list o)).

(** What one iteration of the loop of [_calc_redfield_dephasing] assigns or
    adds to [GammF_aaaa] and to [GammF_abba]. *)
Definition aaaa_term (o : RedfieldTensor) (Z : ident) : vector C :=
  let mask := mask_of (SD_id_list o) Z in
  contract_iaa_iaa_aa (dim o) (take_rows (X o) mask) (take_rows (X o) mask)
    (Cw_of o Z true).

Definition abba_term (o : RedfieldTensor) (Z : ident) : matrix :=
  let mask := mask_of (SD_id_list o) Z in
  contract_iab_iba_ba (dim o) (take_rows (X o) mask) (take_rows (X o) mask)
    (Cw_of o Z true).

(** The locals [GammF_aaaa] and [GammF_abba] after the iteration for [Z0]
    and then those for [ids]. *)
Definition aaaa_accumulated (o : RedfieldTensor) (Z0 : ident) (ids : seq ident)
  : vector C :=
  foldl (fun v Z => vadd (dim o) v (aaaa_term o Z)) (aaaa_term o Z0) ids.

Definition abba_accumulated (o : RedfieldTensor) (Z0 : ident) (ids : seq ident)
  : matrix :=
  foldl (fun A Z => madd (dim o) A (abba_term o Z)) (abba_term o Z0) ids.

(** The two locals when the loop ends: unbound when it had nothing to
    iterate over. *)
Definition dephasing_locals (o : RedfieldTensor)
  : option (vector C) * option matrix :=
  match set_list (SD_id_list o) with
  | [::] => (None, None)
  | Z0 :: ids =>
      (Some (aaaa_accumulated o Z0 ids), Some (abba_accumulated o Z0 ids))
  end.

(** What the last line of case 2 makes of them. *)
Definition reduced_value (o : RedfieldTensor) (Z0 : ident) (ids : seq ident)
  : vector C :=
  vscale (- (2%:R)^-1)
    (vsub (dim o) (aaaa_accumulated o Z0 ids)
       (contract_ab (dim o) (abba_accumulated o Z0 ids))).

(** The dephasing vector that a call of [calc_redf_xi] works with: the
    stored one, or else the one it computes. *)
Definition current_dephasing : M C ident (vector C) :=
  bind (@get_self C ident) (fun o =>
    if dephasing o is Some d then ret d else @_calc_redfield_dephasing C ident).

(** The last two assignments of [_calc_redfield_rates]. *)
Definition rates_finish n (R : matrix) : matrix :=
  let R := set_diag n R (mk1 n (fun _ => 0)) in
  set_diag n R (vopp (sum_axis0 n R)).

End Derived.

(** ** Instances used as examples *)

Section Scenarios.

Variable C : numClosedFieldType.

(** An evaluator that answers entry by entry: the response of spectral
    density [Z] at frequency [x] is [f Z imag x]. *)
Definition pointwise_sd (f : nat -> bool -> C -> C) (t : vector C)
  : SpectralDensity C nat :=
  {| time := t;
     sd_call := fun freqs Z imag =>
       [seq [seq f Z imag x | x <- r] | r <- freqs] |}.

(** Scenario A of the specification: two sites with energies 0 and 100, the
    identity as eigenvector matrix, one spectral density for both sites.
    The projector tensor is written out as section 3 of the specification
    defines it, [X[i,a,b] = U[i,a] * U[i,b]].  The matrix of energy gaps is
    left as a parameter: the rates of this scenario do not depend on it. *)
Definition scenario_A (sd : SpectralDensity C nat) (gaps : matrix C)
  : RedfieldTensor C nat :=
  {| dim := 2;
     ene := [:: 0; 100%:R];
     U := [:: [:: 1; 0]; [:: 0; 1]];
     Om := gaps;
     X := [:: [:: [:: 1; 0]; [:: 0; 0]]; [:: [:: 0; 0]; [:: 0; 1]]];
     SD_id_list := [:: 0%N; 0%N];
     specden := sd;
     secularize := false;
     rates := None; RTen := None; GammF := None; dephasing := None |}.

(** The instance with no site at all: every array is empty. *)
Definition empty_system (sd : SpectralDensity C nat) : RedfieldTensor C nat :=
  {| dim := 0; ene := [::]; U := [::]; Om := [::]; X := [::];
     SD_id_list := [::];
     specden := sd;
     secularize := false;
     rates := None; RTen := None; GammF := None; dephasing := None |}.

(** Two sites that both carry both exciton states, each with a spectral
    density of its own. *)
Definition scenario_mixed (sd : SpectralDensity C nat) : RedfieldTensor C nat :=
  {| dim := 2;
     ene := [:: 0; 100%:R];
     U := [:: [:: 1; 1]; [:: 1; - 1]];
     Om := [:: [:: 0; - 100%:R]; [:: 100%:R; 0]];
     X := [:: [:: [:: 1; 1]; [:: 1; 1]]; [:: [:: 1; - 1]; [:: - 1; 1]]];
     SD_id_list := [:: 0%N; 1%N];
     specden := sd;
     secularize := false;
     rates := None; RTen := None; GammF := None; dephasing := None |}.

(** An evaluator that returns the frequencies themselves, with a time grid
    of two points. *)
Definition identity_sd : SpectralDensity C nat :=
  pointwise_sd (fun _ _ x => x) [:: 0; 1].

(** The gaps of scenario A as the attribute [Om] holds them: the transpose,
    which the evaluator receives, has the entry [E_b - E_a] at [a,b]. *)
Definition gaps_A : matrix C := [:: [:: 0; - 100%:R]; [:: 100%:R; 0]].

Definition instance_A : RedfieldTensor C nat := scenario_A identity_sd gaps_A.

Definition instance_empty : RedfieldTensor C nat := empty_system identity_sd.

(** Fresh instances: nothing stored, no call made yet. *)
Definition world_A : world C nat := World instance_A [::].

Definition world_empty : world C nat := World instance_empty [::].

(** Scenario A as the specification states it: [rate[1,0]] is the
    evaluator's real response at the gap 100, and [rate[0,0]] its
    opposite. *)
Definition scenario_A_claim (f : nat -> bool -> C -> C) : Prop :=
  exists R w',
    _calc_redfield_rates
      (World (scenario_A (pointwise_sd f [::]) gaps_A) [::])
    = Ok (R, w')
    /\ at2 R 1 0 = f 0%N false 100%:R
    /\ at2 R 0 0 = - at2 R 1 0.

End Scenarios.

(** ** Statements about the dephasing calculator *)

Section Statements.

Variable C : numClosedFieldType.
Variable ident : eqType.
Variable secular_tol : C.

(** Modelled from the spec: the instances that the class is specified for.
    The constructor of the base class is not part of the module; sections 3,
    4.2 and 6 of the specification describe what it delivers:
    - at least one exciton state ([dim >= 1]);
    - one identifier in [SD_id_list] per site, and as many sites as states
      (the Hamiltonian is [n_site] by [n_site]);
    - arrays of consistent dimensions: [U] and [Om] are [dim] by [dim], [X]
      is [dim] by [dim] by [dim];
    - an evaluator that answers each identifier of the list with a matrix of
      the shape of the frequencies it is given;
    - a stored [GammF], if there is one, of the shape that
      [_calc_redfield_tensor] gives it.
    On these instances every position of a mask is in range and numpy
    rejects no operand, so that a method returns in the program when it
    returns here. *)
Definition well_formed (o : RedfieldTensor C ident) : Prop :=
  [/\ (0 < dim o)%N,
      size (SD_id_list o) = dim o,
      [&& has_shape2 (dim o) (dim o) (U o),
          has_shape2 (dim o) (dim o) (Om o)
        & has_shape3 (dim o) (dim o) (dim o) (X o)],
      (forall Z imag, Z \in SD_id_list o ->
         has_shape2 (dim o) (dim o) (Cw_of o Z imag))
    & (forall G, GammF o = Some G -> has_shape4 (dim o) G)].

(** The two ways to the dephasing vector give one vector of length [dim]:
    case 1 of [_calc_redfield_dephasing] on the tensor that
    [_calc_redfield_tensor] has stored, and case 2 on the same instance. *)
Definition dephasing_paths_agree (w : world C ident) : Prop :=
  exists R w1 G d w2,
    _calc_redfield_tensor secular_tol w = Ok (R, w1)
    /\ GammF (self_of w1) = Some G
    /\ dephasing_full (self_of w1) G = d
    /\ dephasing_reduced (self_of w) w = Ok (d, w2)
    /\ size d = dim (self_of w).

(** A call of [_calc_redfield_dephasing] returns a vector. *)
Definition dephasing_returns (w : world C ident) : Prop :=
  exists d w', _calc_redfield_dephasing w = Ok (d, w').

End Statements.

(** ** Facts about arrays *)

Section ArrayFacts.

Variable C : numClosedFieldType.

Local Notation vector := (vector C).
Local Notation matrix := (matrix C).
Local Notation tensor3 := (tensor3 C).
Local Notation tensor4 := (tensor4 C).

Lemma at1_mk1 n (f : nat -> C) a : (a < n)%N -> at1 (mk1 n f) a = f a.
Proof. by move=> lt_an; rewrite /at1 /mk1 nth_mkseq. Qed.

Lemma at2_mk2 n m (f : nat -> nat -> C) a b :
  (a < n)%N -> (b < m)%N -> at2 (mk2 n m f) a b = f a b.
Proof. by move=> lt_an lt_bm; rewrite /at2 /mk2 nth_mkseq // at1_mk1. Qed.

Lemma at3_mk3 n m p (f : nat -> nat -> nat -> C) i a b :
  (i < n)%N -> (a < m)%N -> (b < p)%N -> at3 (mk3 n m p f) i a b = f i a b.
Proof. by move=> lt_i lt_a lt_b; rewrite /at3 /mk3 nth_mkseq // at2_mk2. Qed.

Lemma at4_mk4 n (f : nat -> nat -> nat -> nat -> C) a b c d :
  (a < n)%N -> (b < n)%N -> (c < n)%N -> (d < n)%N ->
  at4 (mk4 n f) a b c d = f a b c d.
Proof.
by move=> lt_a lt_b lt_c lt_d; rewrite /at4 /mk4 nth_mkseq // at3_mk3.
Qed.

(** Reading past the end of a tabulated row gives the default. *)
Lemma at1_mk1_out n (f : nat -> C) a : (n <= a)%N -> at1 (mk1 n f) a = 0.
Proof. by move=> le_na; rewrite /at1 nth_default // size_mkseq. Qed.

Lemma at2_mk2_out n m (f : nat -> nat -> C) a b :
  (n <= a)%N || (m <= b)%N -> at2 (mk2 n m f) a b = 0.
Proof.
rewrite /at2 /mk2; case: (ltnP a n) => [lt_an /= le_mb | le_na _].
  by rewrite nth_mkseq // at1_mk1_out.
by rewrite [nth _ _ a]nth_default ?size_mkseq // /at1 nth_nil.
Qed.

(** Indexing commutes with a map that fixes the default. *)
Lemma nth_map_fix (S T : Type) (x0 : S) (y0 : T) (f : S -> T) s i :
  f x0 = y0 -> nth y0 (map f s) i = f (nth x0 s i).
Proof.
move=> fx0; case: (ltnP i (size s)) => [lt_is | le_si].
  exact: nth_map.
by rewrite !nth_default ?size_map.
Qed.

Lemma at1_map (f : C -> C) (v : vector) a :
  f 0 = 0 -> at1 (map f v) a = f (at1 v a).
Proof. by move=> f0; rewrite /at1 (nth_map_fix (x0 := 0)). Qed.

Lemma at2_map (f : C -> C) (A : matrix) a b :
  f 0 = 0 -> at2 [seq map f r | r <- A] a b = f (at2 A a b).
Proof. by move=> f0; rewrite /at2 (nth_map_fix (x0 := [::])) // at1_map. Qed.

Lemma at3_map (f : C -> C) (T : tensor3) i a b :
  f 0 = 0 -> at3 [seq [seq map f r | r <- A] | A <- T] i a b = f (at3 T i a b).
Proof. by move=> f0; rewrite /at3 (nth_map_fix (x0 := [::])) // at2_map. Qed.

Lemma at4_map (f : C -> C) (G : tensor4) a b c d :
  f 0 = 0 ->
  at4 [seq [seq [seq map f r | r <- A] | A <- T] | T <- G] a b c d
  = f (at4 G a b c d).
Proof. by move=> f0; rewrite /at4 (nth_map_fix (x0 := [::])) // at3_map. Qed.

Lemma at2_msquare (A : matrix) a b : at2 (msquare A) a b = (at2 A a b) ^+ 2.
Proof. by rewrite /msquare (at2_map (f := fun x => x ^+ 2)) // expr0n. Qed.

Lemma at2_mhalf (A : matrix) a b : at2 (mhalf A) a b = at2 A a b / 2%:R.
Proof. by rewrite /mhalf (at2_map (f := fun x => x / 2%:R)) // mul0r. Qed.

Lemma at2_mconj (A : matrix) a b : at2 (mconj A) a b = (at2 A a b)^*.
Proof. by rewrite /mconj (at2_map (f := Num.conj)) // rmorph0. Qed.

Lemma at4_tconj (G : tensor4) a b c d :
  at4 (tconj G) a b c d = (at4 G a b c d)^*.
Proof. by rewrite /tconj (at4_map (f := Num.conj)) // rmorph0. Qed.

Lemma at1_vopp (v : vector) a : at1 (vopp v) a = - at1 v a.
Proof. by rewrite /vopp (at1_map (f := -%R)) // oppr0. Qed.

Lemma at1_vscale k (v : vector) a : at1 (vscale k v) a = k * at1 v a.
Proof. by rewrite /vscale (at1_map (f := *%R k)) // mulr0. Qed.

Lemma at2_zeros2 n a b : at2 (zeros2 C n) a b = 0.
Proof.
case: (boolP ((n <= a)%N || (n <= b)%N)) => [/at2_mk2_out -> // | ].
by rewrite negb_or -!ltnNge => /andP[lt_a lt_b]; rewrite at2_mk2.
Qed.

Lemma at2_eye n a b :
  (a < n)%N -> (b < n)%N -> at2 (eye C n) a b = (a == b)%:R.
Proof. by move=> lt_a lt_b; rewrite at2_mk2. Qed.

(** The sum over the rows of a masked operand is a sum over the mask. *)
Lemma sum_take_rows (T : Type) (A : seq (seq T)) (mask : seq nat)
    (F : seq T -> C) :
  \sum_(0 <= i < size (take_rows A mask)) F (nth [::] (take_rows A mask) i)
  = \sum_(j <- mask) F (nth [::] A j).
Proof. by rewrite -(big_nth [::] predT F) /take_rows big_map. Qed.

Lemma contract_ia_ib_abE n (A : matrix) mask (W : matrix) a b :
  (a < n)%N -> (b < n)%N ->
  at2 (contract_ia_ib_ab n (take_rows A mask) (take_rows A mask) W) a b
  = \sum_(i <- mask) at2 A i a * at2 A i b * at2 W a b.
Proof.
move=> lt_a lt_b; rewrite at2_mk2 //.
exact: (sum_take_rows A mask (fun r => at1 r a * at1 r b * at2 W a b)).
Qed.

Lemma contract_iab_icd_baE n (A : tensor3) mask (W : matrix) a b c d :
  (a < n)%N -> (b < n)%N -> (c < n)%N -> (d < n)%N ->
  at4 (contract_iab_icd_ba n (take_rows A mask) (take_rows A mask) W) a b c d
  = \sum_(i <- mask) at3 A i a b * at3 A i c d * at2 W b a.
Proof.
move=> lt_a lt_b lt_c lt_d; rewrite at4_mk4 //.
exact: (sum_take_rows A mask (fun r => at2 r a b * at2 r c d * at2 W b a)).
Qed.

Lemma contract_iaa_iaa_aaE n (A : tensor3) mask (W : matrix) a :
  (a < n)%N ->
  at1 (contract_iaa_iaa_aa n (take_rows A mask) (take_rows A mask) W) a
  = \sum_(i <- mask) at3 A i a a * at3 A i a a * at2 W a a.
Proof.
move=> lt_a; rewrite at1_mk1 //.
exact: (sum_take_rows A mask (fun r => at2 r a a * at2 r a a * at2 W a a)).
Qed.

Lemma contract_iab_iba_baE n (A : tensor3) mask (W : matrix) a b :
  (a < n)%N -> (b < n)%N ->
  at2 (contract_iab_iba_ba n (take_rows A mask) (take_rows A mask) W) a b
  = \sum_(i <- mask) at3 A i a b * at3 A i b a * at2 W b a.
Proof.
move=> lt_a lt_b; rewrite at2_mk2 //.
exact: (sum_take_rows A mask (fun r => at2 r a b * at2 r b a * at2 W b a)).
Qed.

End ArrayFacts.

(** ** Facts about the loops *)

Section LoopFacts.

Variable C : numClosedFieldType.
Variable ident : eqType.

Local Notation vector := (vector C).
Local Notation matrix := (matrix C).
Local Notation tensor3 := (tensor3 C).
Local Notation tensor4 := (tensor4 C).
Local Notation RedfieldTensor := (RedfieldTensor C ident).
Local Notation world := (world C ident).
Local Notation M := (M C ident).

(** A loop whose body cannot fail, leaves the instance alone and calls the
    evaluator once is a left fold, and logs one call per iteration. *)
Lemma for_each_run (S I : Type) (o : RedfieldTensor) (body : S -> I -> M S)
    (step : S -> I -> S) (ev : I -> sd_event C ident) :
  (forall s i w, self_of w = o ->
     body s i w = Ok (step s i, World o (rcons (sd_log w) (ev i)))) ->
  forall l s w, self_of w = o ->
    for_each body s l w = Ok (foldl step s l, World o (sd_log w ++ map ev l)).
Proof.
move=> bodyE; elim=> [|i l IHl] s w wo /=.
  by rewrite /ret cats0 -wo; case: w {wo}.
by rewrite /bind bodyE // IHl //= cat_rcons.
Qed.

Lemma unzip2_enumerate (I : Type) (l : seq I) : unzip2 (enumerate l) = l.
Proof. by rewrite /enumerate unzip2_zip // size_iota. Qed.

Lemma map_enumerate (I T : Type) (f : I -> T) (l : seq I) :
  [seq f p.2 | p <- enumerate l] = [seq f i | i <- l].
Proof. by rewrite -[in RHS](unzip2_enumerate l) -map_comp. Qed.

Lemma foldl_unzip2 (S I J : Type) (g : S -> J -> S) (l : seq (I * J)) s :
  foldl (fun s p => g s p.2) s l = foldl g s (unzip2 l).
Proof. by elim: l s => [|p l IHl] s //=. Qed.

(** Entries of an accumulated sum of matrices, and of tensors. *)
Lemma at2_foldl_madd (I : Type) n (T : I -> matrix) (l : seq I) R0 a b :
  (a < n)%N -> (b < n)%N ->
  at2 (foldl (fun R i => madd n R (T i)) R0 l) a b
  = at2 R0 a b + \sum_(i <- l) at2 (T i) a b.
Proof.
move=> lt_a lt_b; elim: l R0 => [|i l IHl] R0 /=.
  by rewrite big_nil addr0.
by rewrite IHl at2_mk2 // big_cons addrA.
Qed.

Lemma at4_foldl_tadd (I : Type) n (T : I -> tensor4) (l : seq I) G0 a b c d :
  (a < n)%N -> (b < n)%N -> (c < n)%N -> (d < n)%N ->
  at4 (foldl (fun G i => tadd n G (T i)) G0 l) a b c d
  = at4 G0 a b c d + \sum_(i <- l) at4 (T i) a b c d.
Proof.
move=> lt_a lt_b lt_c lt_d; elim: l G0 => [|i l IHl] G0 /=.
  by rewrite big_nil addr0.
by rewrite IHl at4_mk4 // big_cons addrA.
Qed.

Lemma at1_foldl_vadd (I : Type) n (T : I -> vector) (l : seq I) v0 a :
  (a < n)%N ->
  at1 (foldl (fun v i => vadd n v (T i)) v0 l) a
  = at1 v0 a + \sum_(i <- l) at1 (T i) a.
Proof.
move=> lt_a; elim: l v0 => [|i l IHl] v0 /=.
  by rewrite big_nil addr0.
by rewrite IHl at1_mk1 // big_cons addrA.
Qed.



Lemma set_list_uniq (l : seq ident) : uniq (set_list l).
Proof. exact: undup_uniq. Qed.

Lemma mem_set_list (l : seq ident) : set_list l =i l.
Proof. exact: mem_undup. Qed.

End LoopFacts.

(** ** The rate matrix *)

Section RatesFacts.

Variable C : numClosedFieldType.
Variable ident : eqType.

Local Notation matrix := (matrix C).
Local Notation RedfieldTensor := (RedfieldTensor C ident).
Local Notation world := (world C ident).

Implicit Types (w : world) (o : RedfieldTensor) (Z : ident).

(** The loop of [_calc_redfield_rates] run over any list of identifiers. *)
Lemma rates_steps_run w (ids : seq ident) (o := self_of w) :
  for_each (rates_step o (msquare (U o))) (zeros2 C (dim o)) (enumerate ids) w
  = Ok (foldl (fun R Z => madd (dim o) R (rates_term o Z))
          (zeros2 C (dim o)) ids,
        World o (sd_log w ++ [seq SDCall (freqs_of o) Z false | Z <- ids])).
Proof.
rewrite (for_each_run (o := o)
          (step := fun R p => madd (dim o) R (rates_term o p.2))
          (ev := fun p => SDCall (freqs_of o) p.2 false)) //.
  by move=> R [idx Z] w' w'o; rewrite /rates_step /bind /call_specden w'o.
rewrite (foldl_unzip2 (fun R Z => madd (dim o) R (rates_term o Z))).
by rewrite unzip2_enumerate (map_enumerate (fun Z => SDCall _ Z false)).
Qed.

Lemma rates_loop_run w (o := self_of w) :
  rates_loop o (msquare (U o)) w
  = Ok (rates_accumulated o, World o (sd_log w ++ rates_calls o)).
Proof. exact: rates_steps_run. Qed.

(** The accumulated rates do not depend on the order in which the distinct
    identifiers are visited. *)
Lemma rates_any_order o (ids : seq ident) a b :
  perm_eq ids (set_list (SD_id_list o)) ->
  (a < dim o)%N -> (b < dim o)%N ->
  at2 (foldl (fun R Z => madd (dim o) R (rates_term o Z))
         (zeros2 C (dim o)) ids) a b
  = at2 (rates_accumulated o) a b.
Proof.
move=> perm_ids lt_a lt_b; rewrite /rates_accumulated !at2_foldl_madd //.
by congr (_ + _); apply: perm_big.
Qed.

Lemma at2_rates_accumulated o a b :
  (a < dim o)%N -> (b < dim o)%N ->
  at2 (rates_accumulated o) a b
  = \sum_(Z <- set_list (SD_id_list o))
      \sum_(i <- mask_of (SD_id_list o) Z)
        (at2 (U o) i a) ^+ 2 * (at2 (U o) i b) ^+ 2 * at2 (Cw_of o Z false) a b.
Proof.
move=> lt_a lt_b.
rewrite /rates_accumulated at2_foldl_madd // at2_zeros2 add0r.
apply: eq_bigr => Z _; rewrite /rates_term contract_ia_ib_abE //.
by apply: eq_bigr => i _; rewrite !at2_msquare.
Qed.

Lemma calc_redfield_rates_run w (o := self_of w) :
  _calc_redfield_rates w
  = Ok (rates_finish (dim o) (rates_accumulated o),
        World o (sd_log w ++ rates_calls o)).
Proof.
by rewrite /_calc_redfield_rates /bind /get_self rates_loop_run.
Qed.

Lemma at2_rates_finish n (R : matrix) a b :
  (a < n)%N -> (b < n)%N ->
  at2 (rates_finish n R) a b
  = if a == b then - \sum_(0 <= c < n | c != a) at2 R c a else at2 R a b.
Proof.
move=> lt_a lt_b; rewrite /rates_finish at2_mk2 //.
case: eqP => [_ | /eqP ne_ab]; last by rewrite at2_mk2 // (negbTE ne_ab).
rewrite at1_vopp at1_mk1 //; congr (- _).
have a_iota : a \in index_iota 0 n by rewrite mem_index_iota.
rewrite (bigD1_seq a) ?iota_uniq //= at2_mk2 // eqxx at1_mk1 // add0r.
rewrite [LHS]big_nat_cond [RHS]big_nat_cond.
apply: eq_bigr => c /andP[/andP[_ lt_c] ne_ca].
by rewrite at2_mk2 // (negbTE ne_ca).
Qed.

Lemma rates_finish_column n (R : matrix) a :
  (a < n)%N -> \sum_(0 <= b < n) at2 (rates_finish n R) b a = 0.
Proof.
move=> lt_a.
have a_iota : a \in index_iota 0 n by rewrite mem_index_iota.
rewrite (bigD1_seq a) ?iota_uniq //= at2_rates_finish // eqxx.
rewrite addrC; apply/eqP; rewrite subr_eq0; apply/eqP.
rewrite [LHS]big_nat_cond [RHS]big_nat_cond.
apply: eq_bigr => c /andP[/andP[_ lt_c] ne_ca].
by rewrite at2_rates_finish // (negbTE ne_ca).
Qed.

End RatesFacts.

(** ** The correlation tensor and the relaxation tensor *)

Section TensorFacts.

Variable C : numClosedFieldType.
Variable ident : eqType.
Variable secular_tol : C.

Local Notation tensor4 := (tensor4 C).
Local Notation RedfieldTensor := (RedfieldTensor C ident).
Local Notation world := (world C ident).

Implicit Types (w : world) (o : RedfieldTensor) (Z : ident) (G : tensor4).

Lemma at4_zeros4 n a b c d :
  (a < n)%N -> (b < n)%N -> (c < n)%N -> (d < n)%N ->
  at4 (zeros4 C n) a b c d = 0.
Proof. by move=> *; rewrite at4_mk4. Qed.

(** The loop of [_calc_redfield_tensor] run over any list of identifiers. *)
Lemma tensor_steps_run w (ids : seq ident) (o := self_of w) :
  for_each (tensor_step o) (zeros4 C (dim o)) (enumerate ids) w
  = Ok (foldl (fun G Z => tadd (dim o) G (tensor_term o Z))
          (zeros4 C (dim o)) ids,
        World o (sd_log w ++ [seq SDCall (freqs_of o) Z true | Z <- ids])).
Proof.
rewrite (for_each_run (o := o)
          (step := fun G p => tadd (dim o) G (tensor_term o p.2))
          (ev := fun p => SDCall (freqs_of o) p.2 true)) //.
  by move=> G [idx Z] w' w'o; rewrite /tensor_step /bind /call_specden w'o.
rewrite (foldl_unzip2 (fun G Z => tadd (dim o) G (tensor_term o Z))).
by rewrite unzip2_enumerate (map_enumerate (fun Z => SDCall _ Z true)).
Qed.

Lemma tensor_loop_run w (o := self_of w) :
  tensor_loop o w
  = Ok (GammF_accumulated o, World o (sd_log w ++ complex_calls o)).
Proof. exact: tensor_steps_run. Qed.

(** The accumulated tensor does not depend on the order in which the
    distinct identifiers are visited. *)
Lemma tensor_any_order o (ids : seq ident) a b c d :
  perm_eq ids (set_list (SD_id_list o)) ->
  (a < dim o)%N -> (b < dim o)%N -> (c < dim o)%N -> (d < dim o)%N ->
  at4 (foldl (fun G Z => tadd (dim o) G (tensor_term o Z))
         (zeros4 C (dim o)) ids) a b c d
  = at4 (GammF_accumulated o) a b c d.
Proof.
move=> perm_ids lt_a lt_b lt_c lt_d.
rewrite /GammF_accumulated !at4_foldl_tadd //.
by congr (_ + _); apply: perm_big.
Qed.

Lemma at4_GammF_accumulated o a b c d :
  (a < dim o)%N -> (b < dim o)%N -> (c < dim o)%N -> (d < dim o)%N ->
  at4 (GammF_accumulated o) a b c d
  = \sum_(Z <- set_list (SD_id_list o))
      2%:R^-1 * \sum_(i <- mask_of (SD_id_list o) Z)
                  at3 (X o) i a b * at3 (X o) i c d * at2 (Cw_of o Z true) b a.
Proof.
move=> lt_a lt_b lt_c lt_d.
rewrite /GammF_accumulated at4_foldl_tadd // at4_zeros4 // add0r.
apply: eq_bigr => Z _; rewrite /tensor_term contract_iab_icd_baE //.
rewrite big_distrr /=; apply: eq_bigr => i _.
by rewrite at2_mhalf mulrA mulrC.
Qed.

(** With a projector tensor that is symmetric in its exciton indices, the
    correlation tensor is symmetric in its last two indices. *)
Lemma GammF_accumulated_sym o a b c d :
  (forall i p q, at3 (X o) i p q = at3 (X o) i q p) ->
  (a < dim o)%N -> (b < dim o)%N -> (c < dim o)%N -> (d < dim o)%N ->
  at4 (GammF_accumulated o) a b c d = at4 (GammF_accumulated o) a b d c.
Proof.
move=> symX lt_a lt_b lt_c lt_d; rewrite !at4_GammF_accumulated //.
apply: eq_bigr => Z _; congr (_ * _); apply: eq_bigr => i _.
by rewrite [at3 _ i c d]symX.
Qed.

Lemma calc_redfield_tensor_run w (o := self_of w)
    (G := GammF_accumulated o) (o' := set_GammF G o) :
  _calc_redfield_tensor secular_tol w
  = Ok (if secularize o
        then _secularize secular_tol o' (_from_GammaF_to_RTen o' G)
        else _from_GammaF_to_RTen o' G,
        World o' (sd_log w ++ complex_calls o)).
Proof.
rewrite /_calc_redfield_tensor /bind /get_self tensor_loop_run /=.
by case: (secularize _).
Qed.

Lemma at4_from_GammaF o G a b c d :
  (a < dim o)%N -> (b < dim o)%N -> (c < dim o)%N -> (d < dim o)%N ->
  at4 (_from_GammaF_to_RTen o G) a b c d
  = at4 G c a b d + (at4 G d b c a)^*
    - (a == c)%:R * (\sum_(0 <= e < dim o) at4 G d e e b)^*
    - (b == d)%:R * (\sum_(0 <= e < dim o) at4 G c e e a).
Proof.
move=> lt_a lt_b lt_c lt_d; rewrite /_from_GammaF_to_RTen.
rewrite !at4_mk4 // at4_tconj !at2_eye // at2_mconj !at2_mk2 //.
by rewrite opprD addrA [_ * (b == d)%:R]mulrC.
Qed.

Lemma conj_bool (b : bool) : (b%:R : C)^* = b%:R.
Proof. by rewrite rmorph_nat. Qed.

(** The conversion maps a tensor that is symmetric in its last two indices
    to one that satisfies the Hermiticity relation. *)
Lemma from_GammaF_hermitian o G a b c d :
  (forall p q r s, (p < dim o)%N -> (q < dim o)%N -> (r < dim o)%N ->
     (s < dim o)%N -> at4 G p q r s = at4 G p q s r) ->
  (a < dim o)%N -> (b < dim o)%N -> (c < dim o)%N -> (d < dim o)%N ->
  at4 (_from_GammaF_to_RTen o G) a b c d
  = (at4 (_from_GammaF_to_RTen o G) b a d c)^*.
Proof.
move=> symG lt_a lt_b lt_c lt_d; rewrite !at4_from_GammaF //.
rewrite !rmorphB !rmorphD !rmorphM /= !conjCK !conj_bool.
rewrite [at4 G c a d b]symG // [at4 G d b a c]symG //.
rewrite [(at4 G d b c a)^* + _]addrC -!addrA; congr (_ + (_ + _)).
by rewrite addrC.
Qed.

Lemma secularize_hermitian o (R : tensor4) a b c d :
  (a < dim o)%N -> (b < dim o)%N -> (c < dim o)%N -> (d < dim o)%N ->
  at4 R a b c d = (at4 R b a d c)^* ->
  at4 (_secularize secular_tol o R) a b c d
  = (at4 (_secularize secular_tol o R) b a d c)^*.
Proof.
move=> lt_a lt_b lt_c lt_d herm; rewrite /_secularize !at4_mk4 //.
set E := at1 (ene o).
have -> : E b - E a - (E d - E c) = - (E a - E b - (E c - E d)).
  by rewrite !opprB addrC.
by rewrite normrN; case: ifP => _ //; rewrite rmorph0.
Qed.

End TensorFacts.

(** ** The dephasing vector *)

Section DephasingFacts.

Variable C : numClosedFieldType.
Variable ident : eqType.

Local Notation vector := (vector C).
Local Notation matrix := (matrix C).
Local Notation tensor4 := (tensor4 C).
Local Notation RedfieldTensor := (RedfieldTensor C ident).
Local Notation world := (world C ident).

Implicit Types (w : world) (o : RedfieldTensor) (Z : ident) (G : tensor4).

(** Iterations of index 1 and more, entered with both locals bound. *)
Lemma dephasing_tail_run o (l : seq ident) k (v : vector) (A : matrix) w :
  (0 < k)%N -> self_of w = o ->
  for_each (dephasing_step o) (Some v, Some A) (zip (iota k (size l)) l) w
  = Ok ((Some (foldl (fun v Z => vadd (dim o) v (aaaa_term o Z)) v l),
         Some (foldl (fun A Z => madd (dim o) A (abba_term o Z)) A l)),
        World o (sd_log w ++ [seq SDCall (freqs_of o) Z true | Z <- l])).
Proof.
elim: l k v A w => [|Z l IHl] k v A w lt0k wo /=.
  by rewrite /ret cats0 -wo; case: w {wo}.
rewrite (gtn_eqF lt0k) /bind /call_specden /ret /= wo.
by rewrite IHl //= cat_rcons.
Qed.

(** The loop of case 2 run over any list of identifiers. *)
Lemma dephasing_steps_run w (ids : seq ident) (o := self_of w) :
  for_each (dephasing_step o) (None, None) (enumerate ids) w
  = Ok (if ids is Z0 :: ids'
        then (Some (aaaa_accumulated o Z0 ids'),
              Some (abba_accumulated o Z0 ids'))
        else (None, None),
        World o (sd_log w ++ [seq SDCall (freqs_of o) Z true | Z <- ids])).
Proof.
rewrite /enumerate.
case: ids => [|Z0 ids] /=; first by rewrite /ret cats0; case: w @o.
rewrite /bind /call_specden /= /ret.
by rewrite dephasing_tail_run //= cat_rcons.
Qed.

Lemma dephasing_loop_run w (o := self_of w) :
  for_each (dephasing_step o) (None, None)
    (enumerate (set_list (SD_id_list o))) w
  = Ok (dephasing_locals o, World o (sd_log w ++ complex_calls o)).
Proof.
rewrite dephasing_steps_run /dephasing_locals /complex_calls.
by case: (set_list _).
Qed.

Lemma dephasing_reduced_run w (o := self_of w) :
  dephasing_reduced o w
  = match set_list (SD_id_list o) with
    | [::] => Raise (UnboundLocalError GammF_aaaa_var)
    | Z0 :: ids =>
        Ok (reduced_value o Z0 ids, World o (sd_log w ++ complex_calls o))
    end.
Proof.
rewrite /dephasing_reduced /bind dephasing_loop_run /dephasing_locals.
by case: (set_list _).
Qed.

Lemma set_list_nil (l : seq ident) : (set_list l == [::]) = (l == [::]).
Proof.
case: l => [|x l] //; apply/negbTE/eqP => und_nil.
by have := mem_set_list (x :: l) x; rewrite und_nil mem_head.
Qed.

Lemma at1_aaaa_accumulated o Z0 ids a :
  (a < dim o)%N ->
  at1 (aaaa_accumulated o Z0 ids) a
  = \sum_(Z <- Z0 :: ids) \sum_(i <- mask_of (SD_id_list o) Z)
      at3 (X o) i a a * at3 (X o) i a a * at2 (Cw_of o Z true) a a.
Proof.
move=> lt_a; rewrite /aaaa_accumulated at1_foldl_vadd // big_cons.
congr (_ + _); first by rewrite /aaaa_term contract_iaa_iaa_aaE.
by apply: eq_bigr => Z _; rewrite /aaaa_term contract_iaa_iaa_aaE.
Qed.

Lemma at2_abba_accumulated o Z0 ids a b :
  (a < dim o)%N -> (b < dim o)%N ->
  at2 (abba_accumulated o Z0 ids) a b
  = \sum_(Z <- Z0 :: ids) \sum_(i <- mask_of (SD_id_list o) Z)
      at3 (X o) i a b * at3 (X o) i b a * at2 (Cw_of o Z true) b a.
Proof.
move=> lt_a lt_b; rewrite /abba_accumulated at2_foldl_madd // big_cons.
congr (_ + _); first by rewrite /abba_term contract_iab_iba_baE.
by apply: eq_bigr => Z _; rewrite /abba_term contract_iab_iba_baE.
Qed.

Lemma size_reduced_value o Z0 ids : size (reduced_value o Z0 ids) = dim o.
Proof. by rewrite /reduced_value /vscale size_map size_mkseq. Qed.

Lemma size_dephasing_full o G : size (dephasing_full o G) = dim o.
Proof. by rewrite /dephasing_full /vopp size_map size_mkseq. Qed.

Lemma at1_reduced_value o Z0 ids a :
  (a < dim o)%N ->
  at1 (reduced_value o Z0 ids) a
  = - 2%:R^-1 *
    (\sum_(Z <- Z0 :: ids) \sum_(i <- mask_of (SD_id_list o) Z)
        at3 (X o) i a a * at3 (X o) i a a * at2 (Cw_of o Z true) a a
     - \sum_(0 <= b < dim o)
         \sum_(Z <- Z0 :: ids) \sum_(i <- mask_of (SD_id_list o) Z)
           at3 (X o) i a b * at3 (X o) i b a * at2 (Cw_of o Z true) b a).
Proof.
move=> lt_a.
rewrite /reduced_value at1_vscale at1_mk1 // at1_aaaa_accumulated //.
rewrite at1_mk1 //; congr (_ * (_ - _)).
by apply: eq_big_nat => b /andP[_ lt_b]; rewrite at2_abba_accumulated.
Qed.

Lemma at1_dephasing_full o G a :
  (a < dim o)%N ->
  at1 (dephasing_full o G) a
  = - (at4 G a a a a - \sum_(0 <= b < dim o) at4 G a b b a).
Proof. by move=> lt_a; rewrite /dephasing_full at1_vopp !at1_mk1. Qed.

(** The two cases of [_calc_redfield_dephasing] compute one vector: case 1
    on the tensor that [_calc_redfield_tensor] stores, case 2 on the
    eigenbasis. *)
Lemma reduced_value_full o o' Z0 ids :
  set_list (SD_id_list o) = Z0 :: ids -> dim o' = dim o ->
  reduced_value o Z0 ids = dephasing_full o' (GammF_accumulated o).
Proof.
move=> idsE dimE; apply: (eq_from_nth (x0 := 0)).
  by rewrite size_reduced_value size_dephasing_full.
move=> a; rewrite size_reduced_value => lt_a.
rewrite -/(at1 _ a) -/(at1 (dephasing_full _ _) a).
rewrite at1_reduced_value // at1_dephasing_full ?dimE //.
rewrite mulNr mulrBr at4_GammF_accumulated // idsE -big_distrr /=.
congr (- (_ - _)); rewrite big_distrr /=.
apply: eq_big_nat => b /andP[_ lt_b].
by rewrite at4_GammF_accumulated // idsE -big_distrr.
Qed.

(** The vector of case 2 does not depend on the order in which the distinct
    identifiers are visited. *)
Lemma dephasing_any_order o Z0 ids Z0' ids' :
  perm_eq (Z0' :: ids') (Z0 :: ids) ->
  reduced_value o Z0' ids' = reduced_value o Z0 ids.
Proof.
move=> perm_ids; apply: (eq_from_nth (x0 := 0)).
  by rewrite !size_reduced_value.
move=> a; rewrite size_reduced_value => lt_a.
rewrite -/(at1 _ a) -/(at1 (reduced_value o Z0 ids) a) !at1_reduced_value //.
congr (_ * (_ - _)); first exact: perm_big.
by apply: eq_bigr => b _; apply: perm_big.
Qed.

Lemma calc_redfield_dephasing_full w G :
  GammF (self_of w) = Some G ->
  _calc_redfield_dephasing w = Ok (dephasing_full (self_of w) G, w).
Proof. by move=> GE; rewrite /_calc_redfield_dephasing /bind /get_self GE. Qed.

Lemma calc_redfield_dephasing_reduced w :
  GammF (self_of w) = None ->
  _calc_redfield_dephasing w = dephasing_reduced (self_of w) w.
Proof. by move=> GE; rewrite /_calc_redfield_dephasing /bind /get_self GE. Qed.

End DephasingFacts.

(** ** The xi function *)

Section XiFacts.

Variable C : numClosedFieldType.
Variable ident : eqType.

Local Notation vector := (vector C).
Local Notation RedfieldTensor := (RedfieldTensor C ident).
Local Notation world := (world C ident).

Implicit Types (w : world) (o : RedfieldTensor) (d t : vector).

Lemma size_contract_a_t d t : size (contract_a_t d t) = size d.
Proof. by rewrite /contract_a_t size_map. Qed.

Lemma row_contract_a_t d t a :
  (a < size d)%N -> size (nth [::] (contract_a_t d t) a) = size t.
Proof. by move=> lt_a; rewrite /contract_a_t (nth_map 0) // size_map. Qed.

Lemma shape_contract_a_t d t :
  has_shape2 (size d) (size t) (contract_a_t d t).
Proof.
rewrite /has_shape2 size_contract_a_t eqxx /=.
by apply/allP => r /mapP[x _ ->]; rewrite /has_shape1 size_map.
Qed.

Lemma at2_contract_a_t d t a k :
  (a < size d)%N -> (k < size t)%N ->
  at2 (contract_a_t d t) a k = at1 d a * at1 t k.
Proof.
by move=> lt_a lt_k; rewrite /at2 /at1 /contract_a_t !(nth_map 0).
Qed.

(** The empty grid and the grid of one point. *)
Lemma contract_a_t_nil d : contract_a_t d [::] = nseq (size d) [::].
Proof. by rewrite /contract_a_t; elim: d => [|x d /= ->]. Qed.

Lemma contract_a_t_seq1 d (s : C) :
  contract_a_t d [:: s] = [seq [:: x * s] | x <- d].
Proof. by []. Qed.

(** Computing the dephasing vector leaves the instance as it was. *)
Lemma calc_redfield_dephasing_self w d w' :
  _calc_redfield_dephasing w = Ok (d, w') -> self_of w' = self_of w.
Proof.
case GE: (GammF (self_of w)) => [G|].
  by rewrite (calc_redfield_dephasing_full GE) => -[_ <-].
rewrite calc_redfield_dephasing_reduced // dephasing_reduced_run.
by case: (set_list _) => [|Z0 ids] // [_ <-].
Qed.

Lemma calc_redf_xi_stored w d :
  dephasing (self_of w) = Some d ->
  calc_redf_xi w = Ok (contract_a_t d (time (specden (self_of w))), w).
Proof. by move=> dE; rewrite /calc_redf_xi /bind /get_self dE /= dE. Qed.

Lemma calc_redf_xi_fresh w d w' :
  dephasing (self_of w) = None ->
  _calc_redfield_dephasing w = Ok (d, w') ->
  calc_redf_xi w
  = Ok (contract_a_t d (time (specden (self_of w))),
        World (set_dephasing d (self_of w)) (sd_log w')).
Proof.
move=> dE run; have w'o := calc_redfield_dephasing_self run.
by rewrite /calc_redf_xi /bind /get_self dE run /= w'o.
Qed.

(** The dephasing vector is at hand as soon as one is stored, or [GammF] is
    stored, or there is an identifier to iterate over. *)
Lemma current_dephasing_returns w (o := self_of w) :
  [|| isSome (dephasing o), isSome (GammF o) | SD_id_list o != [::]] ->
  exists d w1, current_dephasing w = Ok (d, w1).
Proof.
rewrite /current_dephasing /bind /get_self -/o.
case dE: (dephasing o) => [d|] /=; first by exists d, w.
case GE: (GammF o) => [G|] /=.
  by rewrite (calc_redfield_dephasing_full GE); eexists; eexists.
rewrite -set_list_nil calc_redfield_dephasing_reduced // dephasing_reduced_run.
by rewrite -/o; case: (set_list _) => [|Z0 ids] // _; eexists; eexists.
Qed.

Lemma calc_redf_xi_raise w e :
  dephasing (self_of w) = None ->
  _calc_redfield_dephasing w = Raise e -> calc_redf_xi w = Raise e.
Proof. by move=> dE run; rewrite /calc_redf_xi /bind /get_self dE run. Qed.

End XiFacts.

(** ** The properties of the specification *)

Section Properties.

Variable C : numClosedFieldType.
Variable ident : eqType.
Variable secular_tol : C.

Local Notation tensor4 := (tensor4 C).
Local Notation RedfieldTensor := (RedfieldTensor C ident).
Local Notation world := (world C ident).

Implicit Types (w : world) (o : RedfieldTensor) (Z : ident) (G : tensor4).

Lemma shape_mk4 n (f : nat -> nat -> nat -> nat -> C) : has_shape4 n (mk4 n f).
Proof.
rewrite /has_shape4 size_mkseq eqxx /=.
apply/allP => T /mapP[a _ ->]; rewrite /has_shape3 size_mkseq eqxx /=.
apply/allP => A /mapP[b _ ->]; rewrite /has_shape2 size_mkseq eqxx /=.
by apply/allP => r /mapP[c _ ->]; rewrite /has_shape1 size_mkseq.
Qed.

(** C1.  For a tensor [G] of shape [dim]^4, [_from_GammaF_to_RTen] returns a
    tensor of that shape whose entry [a,b,c,d] is
    [G[c,a,b,d] + conj(G[d,b,c,a])
     - delta(a,c) conj(T[b,d]) - delta(b,d) T[a,c]],
    with [T[p,q]] the sum over [e] of [G[q,e,e,p]]. *)
Theorem from_GammaF_to_RTen_identity o G a b c d :
  has_shape4 (dim o) G ->
  (a < dim o)%N -> (b < dim o)%N -> (c < dim o)%N -> (d < dim o)%N ->
  let T p q := \sum_(0 <= e < dim o) at4 G q e e p in
  has_shape4 (dim o) (_from_GammaF_to_RTen o G)
  /\ at4 (_from_GammaF_to_RTen o G) a b c d
     = at4 G c a b d + (at4 G d b c a)^*
       - (a == c)%:R * (T b d)^* - (b == d)%:R * T a c.
Proof.
move=> _ lt_a lt_b lt_c lt_d /=; split; first exact: shape_mk4.
exact: at4_from_GammaF.
Qed.

(** C4.  Every column of the matrix that [_calc_redfield_rates] returns sums
    to zero, whatever the evaluator answers: the diagonal entry of column
    [a] is the opposite of the sum of the other entries of that column. *)
Theorem rates_columns_sum_to_zero w a :
  (a < dim (self_of w))%N ->
  exists R w',
    _calc_redfield_rates w = Ok (R, w')
    /\ at2 R a a = - \sum_(0 <= b < dim (self_of w) | b != a) at2 R b a
    /\ \sum_(0 <= b < dim (self_of w)) at2 R b a = 0.
Proof.
move=> lt_a; rewrite calc_redfield_rates_run.
eexists; eexists; split; first by [].
split; last exact: rates_finish_column.
rewrite at2_rates_finish // eqxx; congr (- _).
rewrite [LHS]big_nat_cond [RHS]big_nat_cond.
apply: eq_bigr => b /andP[/andP[_ lt_b] ne_ba].
by rewrite at2_rates_finish // (negbTE ne_ba).
Qed.


(** C3.  With at least one exciton state and a projector tensor symmetric
    in its exciton indices, the tensor that [_calc_redfield_tensor] returns,
    filtered or not, satisfies [R[a,b,c,d] = conj(R[b,a,d,c])]. *)
Theorem relaxation_tensor_hermitian w a b c d (o := self_of w) :
  (0 < dim o)%N ->
  (forall i p q, at3 (X o) i p q = at3 (X o) i q p) ->
  (a < dim o)%N -> (b < dim o)%N -> (c < dim o)%N -> (d < dim o)%N ->
  exists R w',
    _calc_redfield_tensor secular_tol w = Ok (R, w')
    /\ at4 R a b c d = (at4 R b a d c)^*.
Proof.
move=> _ symX lt_a lt_b lt_c lt_d; rewrite calc_redfield_tensor_run.
eexists; eexists; split; first by [].
have herm p q r s : (p < dim o)%N -> (q < dim o)%N -> (r < dim o)%N ->
    (s < dim o)%N ->
    at4 (_from_GammaF_to_RTen (set_GammF (GammF_accumulated o) o)
           (GammF_accumulated o)) p q r s
    = (at4 (_from_GammaF_to_RTen (set_GammF (GammF_accumulated o) o)
              (GammF_accumulated o)) q p s r)^*.
  move=> lt_p lt_q lt_r lt_s; apply: from_GammaF_hermitian => //.
  by move=> p' q' r' s' *; apply: GammF_accumulated_sym.
case: (secularize o); last exact: herm.
by apply: secularize_hermitian => //; apply: herm.
Qed.


(** A well-formed instance has a site, hence an identifier. *)
Lemma well_formed_nonempty (o : RedfieldTensor) :
  well_formed o -> SD_id_list o != [::].
Proof. by case=> lt_0 sz_l _ _ _; rewrite -size_eq0 sz_l -lt0n. Qed.

(** C2.  On every well-formed instance, whatever its eigenbasis, its
    [SD_id_list] and its evaluator, the two cases of
    [_calc_redfield_dephasing] return the same vector of length [dim]:
    case 1 on the tensor stored by [_calc_redfield_tensor], case 2 on the
    instance itself. *)
Theorem dephasing_paths_agree_well_formed w :
  well_formed (self_of w) -> dephasing_paths_agree secular_tol w.
Proof.
move=> /well_formed_nonempty /eqP l_nonempty.
rewrite /dephasing_paths_agree calc_redfield_tensor_run.
rewrite dephasing_reduced_run.
case idsE: (set_list _) => [|Z0 ids].
  by move/eqP: idsE; rewrite set_list_nil => /eqP.
exists (if secularize (self_of w)
        then _secularize secular_tol
               (set_GammF (GammF_accumulated (self_of w)) (self_of w))
               (_from_GammaF_to_RTen
                  (set_GammF (GammF_accumulated (self_of w)) (self_of w))
                  (GammF_accumulated (self_of w)))
        else _from_GammaF_to_RTen
               (set_GammF (GammF_accumulated (self_of w)) (self_of w))
               (GammF_accumulated (self_of w))).
eexists; exists (GammF_accumulated (self_of w)).
exists (reduced_value (self_of w) Z0 ids); eexists.
split; first by [].
split; first by [].
split; first by apply/esym; apply: reduced_value_full.
by split; last exact: size_reduced_value.
Qed.

(** C8.  On every well-formed instance [_calc_redfield_dephasing] returns
    a vector of length [dim], by exactly one of its two cases: by case 1,
    without calling the evaluator, when [GammF] is stored, and by case 2,
    with one complex evaluation per distinct identifier, otherwise.  The
    absence of [GammF] is not an error. *)
Theorem dephasing_returns_well_formed w (o := self_of w) :
  well_formed o ->
  exists d w',
    _calc_redfield_dephasing w = Ok (d, w')
    /\ size d = dim o
    /\ match GammF o with
       | Some G => d = dephasing_full o G /\ w' = w
       | None => dephasing_reduced o w = Ok (d, w')
                 /\ sd_log w' = sd_log w ++ complex_calls o
       end.
Proof.
move=> /well_formed_nonempty; case GE: (GammF o) => [G|] /=.
  move=> _; exists (dephasing_full o G), w.
  by rewrite (calc_redfield_dephasing_full GE) size_dephasing_full.
rewrite -set_list_nil calc_redfield_dephasing_reduced // dephasing_reduced_run.
rewrite -/o; case: (set_list _) => [|Z0 ids] // _.
exists (reduced_value o Z0 ids); eexists; split; first by [].
by rewrite size_reduced_value.
Qed.

(** C10.  Without a stored [GammF], [_calc_redfield_dephasing] returns only
    for a non-empty [SD_id_list]: its two accumulators are bound by the
    iteration of index 0, the loop over an empty list leaves them unbound,
    and the method then raises [UnboundLocalError] on the first of them. *)
Theorem dephasing_reduced_unbound w (o := self_of w) :
  GammF o = None ->
  (forall Z locals w0, exists v A w1,
      dephasing_step o locals (0%N, Z) w0 = Ok ((Some v, Some A), w1))
  /\ (SD_id_list o = [::] ->
      for_each (dephasing_step o) (None, None)
        (enumerate (set_list (SD_id_list o))) w = Ok ((None, None), w))
  /\ if SD_id_list o is [::]
     then _calc_redfield_dephasing w = Raise (UnboundLocalError GammF_aaaa_var)
     else dephasing_returns w.
Proof.
move=> GE; split.
  by move=> Z locals w0; do 3!eexists; rewrite /dephasing_step /bind /=.
split; first by move=> ->.
rewrite /dephasing_returns calc_redfield_dephasing_reduced //.
rewrite dephasing_reduced_run -/o.
case lE: (SD_id_list o) => [|Z l] //.
case idsE: (set_list _) => [|Z0 ids]; last by eexists; eexists.
by move/eqP: idsE; rewrite set_list_nil.
Qed.

(** C9.  For every time grid, [calc_redf_xi] returns the outer product of
    the dephasing vector and the grid, of shape [len(dephasing)] by
    [len(time)]; it works from the stored dephasing vector and leaves the
    instance as it is, or, when none is stored, from the one it computes,
    which it stores, changing nothing else of the instance. *)
Theorem xi_outer_product w d w1 (o := self_of w) (t := time (specden o)) :
  current_dephasing w = Ok (d, w1) ->
  exists xi,
    calc_redf_xi w
    = Ok (xi, if dephasing o is Some _ then w
              else World (set_dephasing d o) (sd_log w1))
    /\ has_shape2 (size d) (size t) xi
    /\ (forall a k, (a < size d)%N -> (k < size t)%N ->
          at2 xi a k = at1 d a * at1 t k)
    /\ (forall d0, dephasing o = Some d0 -> d = d0)
    /\ (dephasing o = None -> _calc_redfield_dephasing w = Ok (d, w1)).
Proof.
rewrite /current_dephasing /bind /get_self -/o.
case dE: (dephasing o) => [d0|] /= run; exists (contract_a_t d t).
  case: run => <- _; rewrite (calc_redf_xi_stored dE).
  split=> //; split; first exact: shape_contract_a_t.
  split; first by move=> *; exact: at2_contract_a_t.
  by split=> // d1 [].
rewrite (calc_redf_xi_fresh dE run).
split=> //; split; first exact: shape_contract_a_t.
by split; first by move=> *; exact: at2_contract_a_t.
Qed.

End Properties.

(** ** The example instances *)

Section ScenarioFacts.

Variable C : numClosedFieldType.

Implicit Types (sd : SpectralDensity C nat) (f : nat -> bool -> C -> C).

Lemma scenario_A_ids sd gaps :
  set_list (SD_id_list (scenario_A sd gaps)) = [:: 0%N].
Proof. by []. Qed.

Lemma scenario_A_mask sd gaps :
  mask_of (SD_id_list (scenario_A sd gaps)) 0%N = [:: 0; 1]%N.
Proof. by []. Qed.

(** With the identity as eigenvector matrix no site carries both exciton
    states, so nothing is accumulated off the diagonal. *)
Lemma scenario_A_rate_10 sd gaps :
  at2 (rates_finish 2 (rates_accumulated (scenario_A sd gaps))) 1 0 = 0.
Proof.
rewrite at2_rates_finish //= at2_rates_accumulated // scenario_A_ids.
rewrite big_seq1 scenario_A_mask !big_cons big_nil /at2 /at1 /=.
by rewrite expr0n /= !mul0r mulr0 mul0r !addr0.
Qed.

Lemma rates_finish_00 (R : matrix C) :
  at2 (rates_finish 2 R) 0 0 = - at2 (rates_finish 2 R) 1 0.
Proof.
rewrite !at2_rates_finish //=; congr (- _).
by rewrite /index_iota /= !big_cons big_nil /= addr0.
Qed.

(** C6, with the value that the method computes.  In scenario A, whatever
    the evaluator answers at the gap 100 and whichever way the gaps are
    stored, [rate[1,0]] is 0, and [rate[0,0]] is the opposite of
    [rate[1,0]]. *)
Theorem scenario_A_rates f gaps :
  exists R w',
    _calc_redfield_rates (World (scenario_A (pointwise_sd f [::]) gaps) [::])
    = Ok (R, w')
    /\ at2 R 1 0 = 0
    /\ at2 R 0 0 = - at2 R 1 0.
Proof.
rewrite calc_redfield_rates_run; eexists; eexists; split; first by [].
by split; [exact: scenario_A_rate_10 | exact: rates_finish_00].
Qed.

(** With mixed states the same method gives a rate that is not zero: for
    the evaluator that answers 1 everywhere, [rate[1,0]] is 2 and
    [rate[0,0]] is -2. *)
Example scenario_mixed_rates :
  exists R w',
    _calc_redfield_rates
      (World (scenario_mixed (pointwise_sd (fun _ _ _ => 1 : C) [::])) [::])
    = Ok (R, w')
    /\ at2 R 1 0 = 2%:R
    /\ at2 R 0 0 = - 2%:R.
Proof.
rewrite calc_redfield_rates_run; eexists; eexists; split; first by [].
set o := scenario_mixed _.
have R10 : at2 (rates_finish 2 (rates_accumulated o)) 1 0 = 2%:R.
  rewrite at2_rates_finish //= at2_rates_accumulated //.
  have -> : set_list (SD_id_list o) = [:: 0; 1]%N by [].
  rewrite !big_cons !big_nil /at2 /at1 /=.
  by rewrite !expr1n sqrrN expr1n !mul1r !addr0.
by rewrite rates_finish_00 R10.
Qed.

Lemma scenario_A_X_sym sd gaps i p q :
  at3 (X (scenario_A sd gaps)) i p q = at3 (X (scenario_A sd gaps)) i q p.
Proof.
rewrite /at3 /at2 /at1.
by case: i p q => [|[|i]] [|[|p]] [|[|q]] //=; rewrite ?nth_nil.
Qed.

End ScenarioFacts.

(** C6 as the specification states it fails for the evaluator that answers
    1 everywhere: the rate is 0 and the response at the gap 100 is 1. *)
Lemma scenario_A_rate_is_not_Cw :
  ~ scenario_A_claim (fun _ _ _ => 1 : algC).
Proof.
move=> [R [w' [run [R10 _]]]]; move: run R10.
rewrite calc_redfield_rates_run => -[<- _]; rewrite scenario_A_rate_10.
by move/eqP; rewrite eq_sym oner_eq0.
Qed.

(** Scenario A is well formed: two states, two sites, arrays of dimension
    2, and an evaluator that answers entry by entry. *)
Lemma instance_A_well_formed (C : numClosedFieldType) :
  well_formed (instance_A C).
Proof. by split. Qed.

(** On the instance without sites the tensor is built and stored, and
    case 1 then returns the empty vector. *)
Example empty_system_full_path :
  exists R w1,
    _calc_redfield_tensor (0 : algC) (world_empty algC) = Ok (R, w1)
    /\ _calc_redfield_dephasing w1 = Ok ([::], w1).
Proof. by rewrite calc_redfield_tensor_run; eexists; eexists. Qed.

(** The instance without sites is not well formed ([dim] is 0).  There the
    two cases do not agree: case 2 raises and returns no vector. *)
Lemma empty_system_paths_disagree :
  ~ dephasing_paths_agree (0 : algC) (world_empty algC).
Proof.
move=> [R [w1 [G [d [w2 [_ [_ [_ [run _]]]]]]]]]; move: run.
by rewrite dephasing_reduced_run.
Qed.

(** On the instance without sites and without a stored [GammF] the call
    raises. *)
Lemma empty_system_dephasing_raises :
  ~ dephasing_returns (world_empty algC).
Proof.
move=> [d [w' run]]; move: run.
by rewrite calc_redfield_dephasing_reduced // dephasing_reduced_run.
Qed.

(** ** The properties at the example instances *)

(** C1 at the zero tensor of scenario A. *)
Lemma from_GammaF_to_RTen_identity_witness :
  has_shape4 2 (_from_GammaF_to_RTen (instance_A algC) (zeros4 algC 2))
  /\ at4 (_from_GammaF_to_RTen (instance_A algC) (zeros4 algC 2)) 0 1 0 1
     = at4 (zeros4 algC 2) 0 0 1 1 + (at4 (zeros4 algC 2) 1 1 0 0)^*
       - (0%N == 0%N)%:R * (\sum_(0 <= e < 2) at4 (zeros4 algC 2) 1 e e 1)^*
       - (1%N == 1%N)%:R * \sum_(0 <= e < 2) at4 (zeros4 algC 2) 0 e e 0.
Proof.
exact: (@from_GammaF_to_RTen_identity algC nat (instance_A algC)
          (zeros4 algC 2) 0 1 0 1 (shape_mk4 _ _) isT isT isT isT).
Defined.

(** C2 at scenario A. *)
Lemma dephasing_paths_agree_well_formed_witness :
  well_formed (instance_A algC)
  /\ dephasing_paths_agree (0 : algC) (world_A algC).
Proof.
split; first exact: instance_A_well_formed.
exact: (@dephasing_paths_agree_well_formed algC nat 0 (world_A algC)
          (instance_A_well_formed algC)).
Defined.

(** C3 at scenario A. *)
Lemma relaxation_tensor_hermitian_witness :
  exists R w',
    _calc_redfield_tensor (0 : algC) (world_A algC) = Ok (R, w')
    /\ at4 R 0 1 0 1 = (at4 R 1 0 1 0)^*.
Proof.
apply: (@relaxation_tensor_hermitian algC nat 0 (world_A algC) 0 1 0 1) => //.
exact: scenario_A_X_sym.
Defined.

(** C4 at the first column of scenario A. *)
Lemma rates_columns_sum_to_zero_witness :
  exists R w',
    _calc_redfield_rates (world_A algC) = Ok (R, w')
    /\ at2 R 0 0 = - \sum_(0 <= b < 2 | b != 0%N) at2 R b 0
    /\ \sum_(0 <= b < 2) at2 R b 0 = 0.
Proof.
exact: (@rates_columns_sum_to_zero algC nat (world_A algC) 0 isT).
Defined.



(** C8 at scenario A, where nothing is stored. *)
Lemma dephasing_returns_well_formed_witness :
  well_formed (instance_A algC)
  /\ exists d w',
       _calc_redfield_dephasing (world_A algC) = Ok (d, w')
       /\ size d = 2
       /\ (dephasing_reduced (instance_A algC) (world_A algC) = Ok (d, w')
           /\ sd_log w' = [::] ++ complex_calls (instance_A algC)).
Proof.
split; first exact: instance_A_well_formed.
exact: (@dephasing_returns_well_formed algC nat (world_A algC)
          (instance_A_well_formed algC)).
Defined.

(** C10 at the instance without sites. *)
Lemma dephasing_reduced_unbound_witness :
  (forall (Z : nat) locals w0, exists v A w1,
      dephasing_step (instance_empty algC) locals (0%N, Z) w0
      = Ok ((Some v, Some A), w1))
  /\ (SD_id_list (instance_empty algC) = [::] ->
      for_each (dephasing_step (instance_empty algC)) (None, None)
        (enumerate (set_list (SD_id_list (instance_empty algC))))
        (world_empty algC)
      = Ok ((None, None), world_empty algC))
  /\ _calc_redfield_dephasing (world_empty algC)
     = Raise (UnboundLocalError GammF_aaaa_var).
Proof.
exact: (@dephasing_reduced_unbound algC nat (world_empty algC) erefl).
Defined.

(** C9 at scenario A, where no dephasing vector is stored. *)
Lemma xi_outer_product_witness :
  exists xi,
    calc_redf_xi (world_A algC)
    = Ok (xi, World (set_dephasing (reduced_value (instance_A algC) 0%N [::])
                       (instance_A algC))
                [:: SDCall (freqs_of (instance_A algC)) 0%N true])
    /\ has_shape2 2 2 xi
    /\ (forall a k, (a < 2)%N -> (k < 2)%N ->
          at2 xi a k
          = at1 (reduced_value (instance_A algC) 0%N [::]) a
            * at1 [:: 0; 1] k)
    /\ (forall d0, dephasing (instance_A algC) = Some d0 ->
          reduced_value (instance_A algC) 0%N [::] = d0)
    /\ (dephasing (instance_A algC) = None ->
        _calc_redfield_dephasing (world_A algC)
        = Ok (reduced_value (instance_A algC) 0%N [::],
              World (instance_A algC)
                [:: SDCall (freqs_of (instance_A algC)) 0%N true])).
Proof.
exact: (@xi_outer_product algC nat (world_A algC)
          (reduced_value (instance_A algC) 0%N [::])
          (World (instance_A algC)
             [:: SDCall (freqs_of (instance_A algC)) 0%N true]) erefl).
Defined.

(** ** Further facts: the grouping of the sites *)

Section GroupingFacts.

Variable C : numClosedFieldType.
Variable ident : eqType.
Variable secular_tol : C.

Local Notation matrix := (matrix C).
Local Notation tensor4 := (tensor4 C).
Local Notation RedfieldTensor := (RedfieldTensor C ident).
Local Notation world := (world C ident).

Implicit Types (w : world) (o : RedfieldTensor) (Z : ident) (l : seq ident).

Lemma mem_enumerate l (p : nat * ident) : p \in enumerate l -> p.2 \in l.
Proof. by move=> p_in; rewrite -[l]unzip2_enumerate; apply: map_f. Qed.

(** Every site is in the mask of exactly one distinct identifier: a double
    sum over the identifiers and their masks is one sum over the sites. *)
Lemma sum_masks l (F : nat -> ident -> C) :
  \sum_(Z <- set_list l) \sum_(i <- mask_of l Z) F i Z
  = \sum_(p <- enumerate l) F p.1 p.2.
Proof.
rewrite /mask_of.
rewrite (eq_bigr (fun Z => \sum_(p <- enumerate l)
                             if p.2 == Z then F p.1 Z else 0)).
  by move=> Z _; rewrite big_map big_filter big_mkcond.
rewrite exchange_big /=; apply: eq_big_seq => p /mem_enumerate p_in.
rewrite -big_mkcond /= -big_filter.
rewrite (_ : [seq Z <- set_list l | p.2 == Z] = [:: p.2]) ?big_seq1 //.
rewrite (eq_filter (a2 := pred1 p.2)); first by move=> Z /=; rewrite eq_sym.
by rewrite filter_pred1_uniq ?set_list_uniq ?mem_set_list.
Qed.


(** The accumulated rates as one sum over the sites, each with the response
    of its own spectral density. *)
Lemma at2_rates_accumulated_sites o a b :
  (a < dim o)%N -> (b < dim o)%N ->
  at2 (rates_accumulated o) a b
  = \sum_(p <- enumerate (SD_id_list o))
      (at2 (U o) p.1 a) ^+ 2 * (at2 (U o) p.1 b) ^+ 2
      * at2 (Cw_of o p.2 false) a b.
Proof.
move=> lt_a lt_b; rewrite at2_rates_accumulated //.
exact: (sum_masks (SD_id_list o)
          (fun i Z => (at2 (U o) i a) ^+ 2 * (at2 (U o) i b) ^+ 2
                      * at2 (Cw_of o Z false) a b)).
Qed.

Lemma at4_GammF_accumulated_sites o a b c d :
  (a < dim o)%N -> (b < dim o)%N -> (c < dim o)%N -> (d < dim o)%N ->
  at4 (GammF_accumulated o) a b c d
  = 2%:R^-1 * \sum_(p <- enumerate (SD_id_list o))
                at3 (X o) p.1 a b * at3 (X o) p.1 c d
                * at2 (Cw_of o p.2 true) b a.
Proof.
move=> lt_a lt_b lt_c lt_d; rewrite at4_GammF_accumulated // -big_distrr /=.
congr (_ * _).
exact: (sum_masks (SD_id_list o)
          (fun i Z => at3 (X o) i a b * at3 (X o) i c d
                      * at2 (Cw_of o Z true) b a)).
Qed.

(** X1.  Grouping the sites by spectral density changes nothing: off the
    diagonal, the rate that [_calc_redfield_rates] returns is the sum over
    all sites [i], in the order of [SD_id_list], of
    [U[i,a]^2 * U[i,b]^2 * Cw[a,b]] with [Cw] the response of the spectral
    density of site [i]. *)
Theorem rates_sum_over_sites w a b (o := self_of w) :
  (a < dim o)%N -> (b < dim o)%N -> a != b ->
  exists R w',
    _calc_redfield_rates w = Ok (R, w')
    /\ at2 R a b
       = \sum_(p <- enumerate (SD_id_list o))
           (at2 (U o) p.1 a) ^+ 2 * (at2 (U o) p.1 b) ^+ 2
           * at2 (sd_call (specden o) (freqs_of o) p.2 false) a b.
Proof.
move=> lt_a lt_b ne_ab; rewrite calc_redfield_rates_run.
eexists; eexists; split; first by [].
by rewrite at2_rates_finish // (negbTE ne_ab) at2_rates_accumulated_sites.
Qed.

(** X2.  The same for the correlation tensor: the entry [a,b,c,d] of the
    tensor that [_calc_redfield_tensor] stores as [GammF] is half the sum
    over all sites [i] of [X[i,a,b] * X[i,c,d] * Cw[b,a]] with [Cw] the
    response of the spectral density of site [i]. *)
Theorem GammF_sum_over_sites w a b c d (o := self_of w) :
  (a < dim o)%N -> (b < dim o)%N -> (c < dim o)%N -> (d < dim o)%N ->
  exists R w' G,
    _calc_redfield_tensor secular_tol w = Ok (R, w')
    /\ GammF (self_of w') = Some G
    /\ at4 G a b c d
       = 2%:R^-1 * \sum_(p <- enumerate (SD_id_list o))
                     at3 (X o) p.1 a b * at3 (X o) p.1 c d
                     * at2 (sd_call (specden o) (freqs_of o) p.2 true) b a.
Proof.
move=> lt_a lt_b lt_c lt_d; rewrite calc_redfield_tensor_run.
eexists; eexists; exists (GammF_accumulated o); split; first by [].
by split; last exact: at4_GammF_accumulated_sites.
Qed.

End GroupingFacts.

(** ** Further facts: the rate matrix *)

Section MoreRatesFacts.

Variable C : numClosedFieldType.
Variable ident : eqType.

Local Notation matrix := (matrix C).
Local Notation RedfieldTensor := (RedfieldTensor C ident).
Local Notation world := (world C ident).

Implicit Types (w : world) (o : RedfieldTensor) (Z : ident).

Lemma eq_mk2 n m (f g : nat -> nat -> C) :
  (forall a b, (a < n)%N -> (b < m)%N -> f a b = g a b) ->
  mk2 n m f = mk2 n m g.
Proof.
move=> eq_fg; rewrite /mk2 /mk1 /mkseq.
apply/eq_in_map => a; rewrite mem_iota add0n => /andP[_ lt_a].
by apply/eq_in_map => b; rewrite mem_iota add0n => /andP[_ lt_b]; apply: eq_fg.
Qed.

(** A matrix that the last two assignments produce is determined by its
    entries. *)
Lemma rates_finish_ext n (R1 R2 : matrix) :
  (forall a b, (a < n)%N -> (b < n)%N ->
     at2 (rates_finish n R1) a b = at2 (rates_finish n R2) a b) ->
  rates_finish n R1 = rates_finish n R2.
Proof.
move=> eqR; rewrite /rates_finish /set_diag; apply: eq_mk2 => a b lt_a lt_b.
by have := eqR a b lt_a lt_b; rewrite /rates_finish /set_diag !at2_mk2.
Qed.

(** X3.  The response at zero frequency plays no part in the rates: two
    instances with the same eigenvectors and identifiers, whose evaluators
    answer alike at every entry off the diagonal, get the same rate
    matrix. *)
Theorem rates_ignore_diagonal_response w1 w2
    (o1 := self_of w1) (o2 := self_of w2) :
  dim o1 = dim o2 -> U o1 = U o2 -> SD_id_list o1 = SD_id_list o2 ->
  (forall Z a b, (a < dim o1)%N -> (b < dim o1)%N -> a != b ->
     at2 (sd_call (specden o1) (freqs_of o1) Z false) a b
     = at2 (sd_call (specden o2) (freqs_of o2) Z false) a b) ->
  exists R w1' w2',
    _calc_redfield_rates w1 = Ok (R, w1')
    /\ _calc_redfield_rates w2 = Ok (R, w2').
Proof.
move=> dimE UE lE CwE; rewrite !calc_redfield_rates_run -/o1 -/o2.
exists (rates_finish (dim o1) (rates_accumulated o1)).
eexists; eexists; split; first by [].
congr (Ok (_, _)); rewrite -dimE; apply: rates_finish_ext => a b lt_a lt_b.
have accE p q : (p < dim o1)%N -> (q < dim o1)%N -> p != q ->
    at2 (rates_accumulated o2) p q = at2 (rates_accumulated o1) p q.
  move=> lt_p lt_q ne_pq; rewrite !at2_rates_accumulated -?dimE // -lE -UE.
  apply: eq_bigr => Z _; apply: eq_bigr => i _.
  by rewrite /Cw_of CwE.
rewrite !at2_rates_finish //; case: eqP => [_ | /eqP ne_ab]; last exact: accE.
congr (- _); rewrite [LHS]big_nat_cond [RHS]big_nat_cond.
by apply: eq_bigr => c /andP[/andP[_ lt_c] ne_ca]; apply: accE.
Qed.

(** X4.  With an empty [SD_id_list], [_calc_redfield_rates] returns the
    matrix of zeros of shape [dim] by [dim], diagonal included, without
    calling the evaluator and without raising. *)
Theorem rates_without_sites w (o := self_of w) :
  SD_id_list o = [::] ->
  _calc_redfield_rates w = Ok (zeros2 C (dim o), w).
Proof.
move=> lE; rewrite calc_redfield_rates_run -/o /rates_calls /rates_accumulated.
rewrite lE /= cats0; congr (Ok (_, _)); last by case: w @o lE.
rewrite /rates_finish /set_diag /zeros2; apply: eq_mk2 => a b lt_a lt_b.
set R0 := mk2 _ _ (fun a0 b0 => if a0 == b0 then _ else _).
have R0E p q : at2 R0 p q = 0.
  have [oob|] := boolP ((dim o <= p)%N || (dim o <= q)%N).
    by rewrite at2_mk2_out.
  rewrite negb_or -!ltnNge => /andP[lt_p lt_q]; rewrite at2_mk2 //.
  by case: ifP => _; [rewrite at1_mk1 | exact: at2_zeros2].
case: ifP => _ //.
by rewrite at1_vopp at1_mk1 // big1 ?oppr0.
Qed.

End MoreRatesFacts.

(** ** Further facts: the relaxation tensor *)

Section MoreTensorFacts.

Variable C : numClosedFieldType.
Variable ident : eqType.
Variable secular_tol : C.

Local Notation matrix := (matrix C).
Local Notation tensor4 := (tensor4 C).
Local Notation RedfieldTensor := (RedfieldTensor C ident).
Local Notation world := (world C ident).

Implicit Types (w : world) (o : RedfieldTensor) (Z : ident) (G H : tensor4).

Lemma eq_mk4 n (f g : nat -> nat -> nat -> nat -> C) :
  (forall a b c d, (a < n)%N -> (b < n)%N -> (c < n)%N -> (d < n)%N ->
     f a b c d = g a b c d) ->
  mk4 n f = mk4 n g.
Proof.
move=> eq_fg; rewrite /mk4 /mk3 /mkseq.
apply/eq_in_map => a; rewrite mem_iota add0n => /andP[_ lt_a].
apply/eq_in_map => b; rewrite mem_iota add0n => /andP[_ lt_b].
by apply: eq_mk2 => c d lt_c lt_d; apply: eq_fg.
Qed.

(** A sum against the Kronecker delta picks one term. *)
Lemma sum_delta n (f : nat -> C) c :
  (c < n)%N -> \sum_(0 <= a < n) (a == c)%:R * f a = f c.
Proof.
move=> lt_c; have c_iota : c \in index_iota 0 n by rewrite mem_index_iota.
rewrite (bigD1_seq c) ?iota_uniq //= eqxx mul1r big1 ?addr0 // => a ne_ac.
by rewrite (negbTE ne_ac) mul0r.
Qed.

Lemma from_GammaF_zeros o :
  _from_GammaF_to_RTen o (zeros4 C (dim o)) = zeros4 C (dim o).
Proof.
rewrite {1}/_from_GammaF_to_RTen /tsub /zeros4.
apply: eq_mk4 => a b c d lt_a lt_b lt_c lt_d.
rewrite -/(tsub _ _ _) -/(zeros4 C (dim o)).
have := at4_from_GammaF (zeros4 C (dim o)) lt_a lt_b lt_c lt_d.
rewrite /_from_GammaF_to_RTen /tsub at4_mk4 // => ->.
have T0 p q : (p < dim o)%N -> (q < dim o)%N ->
    \sum_(0 <= e < dim o) at4 (zeros4 C (dim o)) p e e q = 0.
  move=> lt_p lt_q; rewrite big1_seq // => e.
  by rewrite mem_index_iota => /andP[_ lt_e]; rewrite at4_zeros4.
by rewrite !at4_zeros4 // !T0 // !rmorph0 !mulr0 addr0 !subr0.
Qed.

(** X5.  With an empty [SD_id_list] and the secular flag off,
    [_calc_redfield_tensor] returns the tensor of zeros, stores the tensor
    of zeros as [GammF] and does not call the evaluator; the dephasing
    vector computed afterwards is the vector of zeros. *)
Theorem tensor_without_sites w (o := self_of w) :
  SD_id_list o = [::] -> secularize o = false ->
  _calc_redfield_tensor secular_tol w
  = Ok (zeros4 C (dim o), World (set_GammF (zeros4 C (dim o)) o) (sd_log w))
  /\ _calc_redfield_dephasing
       (World (set_GammF (zeros4 C (dim o)) o) (sd_log w))
     = Ok (mk1 (dim o) (fun _ => 0),
           World (set_GammF (zeros4 C (dim o)) o) (sd_log w)).
Proof.
move=> lE secE; rewrite calc_redfield_tensor_run -/o secE.
rewrite /complex_calls /GammF_accumulated lE /= cats0.
rewrite (from_GammaF_zeros (set_GammF (zeros4 C (dim o)) o)) /=.
split=> //.
rewrite (@calc_redfield_dephasing_full _ _ _ (zeros4 C (dim o))) //.
congr (Ok (_, _)); apply: (eq_from_nth (x0 := 0)).
  by rewrite size_dephasing_full size_mkseq.
move=> a; rewrite size_dephasing_full /= => lt_a.
rewrite -/(at1 _ a) -/(at1 (mk1 _ _) a) at1_dephasing_full //= at1_mk1 //.
rewrite at4_zeros4 // big1_seq ?subr0 ?oppr0 // => b.
by rewrite mem_index_iota => /andP[_ lt_b]; rewrite at4_zeros4.
Qed.

(** X8.  The relaxation tensor conserves the trace: with a projector tensor
    symmetric in its exciton indices and the secular flag off, the tensor
    that [_calc_redfield_tensor] returns satisfies
    [sum_a R[a,a,c,d] = 0] for all [c], [d]. *)
Theorem relaxation_tensor_trace w c d (o := self_of w) :
  secularize o = false ->
  (forall i p q, at3 (X o) i p q = at3 (X o) i q p) ->
  (c < dim o)%N -> (d < dim o)%N ->
  exists R w',
    _calc_redfield_tensor secular_tol w = Ok (R, w')
    /\ \sum_(0 <= a < dim o) at4 R a a c d = 0.
Proof.
move=> secE symX lt_c lt_d; rewrite calc_redfield_tensor_run -/o secE.
eexists; eexists; split; first by [].
set G := GammF_accumulated o; set o' := set_GammF G o.
have symG p q r s : (p < dim o)%N -> (q < dim o)%N -> (r < dim o)%N ->
    (s < dim o)%N -> at4 G p q r s = at4 G p q s r.
  by move=> *; apply: GammF_accumulated_sym.
rewrite (eq_big_nat _ _ (F2 := fun a =>
          (at4 G c a a d - (a == d)%:R * \sum_(0 <= e < dim o) at4 G c e e a)
          + ((at4 G d a a c)^*
             - (a == c)%:R * (\sum_(0 <= e < dim o) at4 G d e e a)^*))).
  move=> a /andP[_ lt_a]; rewrite (at4_from_GammaF (o := o')) //=.
  rewrite [at4 G d a c a]symG // -!addrA; congr (_ + _).
  by rewrite [RHS]addrC -addrA.
rewrite big_split /= !sumrB !sum_delta // subrr add0r.
by rewrite -rmorph_sum subrr.
Qed.

(** X9.  The conversion is additive: the tensor made from the sum of two
    correlation tensors is, entry by entry, the sum of the tensors made
    from each. *)
Theorem from_GammaF_to_RTen_additive o G H a b c d :
  (a < dim o)%N -> (b < dim o)%N -> (c < dim o)%N -> (d < dim o)%N ->
  at4 (_from_GammaF_to_RTen o (tadd (dim o) G H)) a b c d
  = at4 (_from_GammaF_to_RTen o G) a b c d
    + at4 (_from_GammaF_to_RTen o H) a b c d.
Proof.
move=> lt_a lt_b lt_c lt_d; rewrite !at4_from_GammaF // !at4_mk4 //.
have sumE p q : (p < dim o)%N -> (q < dim o)%N ->
    \sum_(0 <= e < dim o) at4 (tadd (dim o) G H) p e e q
    = \sum_(0 <= e < dim o) at4 G p e e q
      + \sum_(0 <= e < dim o) at4 H p e e q.
  move=> lt_p lt_q; rewrite -big_split /=.
  by apply: eq_big_nat => e /andP[_ lt_e]; rewrite at4_mk4.
rewrite !sumE // !rmorphD /= !mulrDr !opprD.
rewrite [RHS]addrACA; congr (_ + _).
rewrite [RHS]addrACA; congr (_ + _).
by rewrite [RHS]addrACA.
Qed.

End MoreTensorFacts.

(** ** Further facts: rates and tensor together *)

Section RatesInTensor.

Variable C : numClosedFieldType.
Variable ident : eqType.
Variable secular_tol : C.

Local Notation RedfieldTensor := (RedfieldTensor C ident).
Local Notation world := (world C ident).

Implicit Types (w : world) (o : RedfieldTensor) (Z : ident).

Lemma half_double (y : C) : 2%:R^-1 * (y + y) = y.
Proof.
by rewrite -mulr2n -[y *+ 2]mulr_natr mulrCA mulVf ?mulr1 // pnatr_eq0.
Qed.

Lemma conj_half : ((2%:R : C)^-1)^* = 2%:R^-1.
Proof. by rewrite fmorphV rmorph_nat. Qed.

(** X13.  The population block of the relaxation tensor is the rate
    matrix: with the secular flag off, [X[i,p,q] = U[i,p] * U[i,q]] with
    real [U], and an evaluator whose answer for [imag=False] is the real
    part of its answer for [imag=True], the entry [a,a,b,b] of the tensor
    that [_calc_redfield_tensor] returns is the rate [a,b] that
    [_calc_redfield_rates] returns, for [a] different from [b]. *)
Theorem tensor_population_block_is_rate w a b (o := self_of w) :
  (a < dim o)%N -> (b < dim o)%N -> a != b ->
  secularize o = false ->
  (forall i p q, at3 (X o) i p q = at2 (U o) i p * at2 (U o) i q) ->
  (forall i p, (at2 (U o) i p)^* = at2 (U o) i p) ->
  (forall Z,
     at2 (sd_call (specden o) (freqs_of o) Z false) a b
     = 2%:R^-1 * (at2 (sd_call (specden o) (freqs_of o) Z true) a b
                  + (at2 (sd_call (specden o) (freqs_of o) Z true) a b)^*)) ->
  exists R w1 T w2,
    _calc_redfield_rates w = Ok (R, w1)
    /\ _calc_redfield_tensor secular_tol w = Ok (T, w2)
    /\ at4 T a a b b = at2 R a b.
Proof.
move=> lt_a lt_b ne_ab secE XE Ureal CwE.
rewrite calc_redfield_rates_run calc_redfield_tensor_run -/o secE.
do 4!eexists; split; first by []; split; first by [].
rewrite (at4_from_GammaF (o := set_GammF _ o)) //= (negbTE ne_ab).
rewrite !mul0r !subr0 at2_rates_finish // (negbTE ne_ab).
rewrite at2_rates_accumulated // !at4_GammF_accumulated //.
rewrite rmorph_sum -big_split /=; apply: eq_bigr => Z _.
rewrite rmorphM /= conj_half rmorph_sum -mulrDr -big_split /= big_distrr /=.
apply: eq_bigr => i _; rewrite /Cw_of CwE !rmorphM /= !XE !rmorphM /= !Ureal.
set u := at2 (U o) i a; set v := at2 (U o) i b.
set x := at2 _ a b.
have -> : v * u * (u * v) = u ^+ 2 * v ^+ 2.
  by rewrite [v * u]mulrC mulrACA !expr2.
have -> : v * u * (v * u) = u ^+ 2 * v ^+ 2.
  by rewrite [v * u]mulrC mulrACA !expr2.
by rewrite -mulrDr mulrCA.
Qed.

End RatesInTensor.

(** ** Further facts: the dephasing vector and the xi function *)

Section MoreDephasingFacts.

Variable C : numClosedFieldType.
Variable ident : eqType.
Variable secular_tol : C.

Local Notation vector := (vector C).
Local Notation tensor4 := (tensor4 C).
Local Notation RedfieldTensor := (RedfieldTensor C ident).
Local Notation world := (world C ident).

Implicit Types (w : world) (o : RedfieldTensor) (Z : ident) (G : tensor4).

(** Taking the term of index [a] out of a sum over the exciton states. *)
Lemma sum_split_diag n (f : nat -> C) a :
  (a < n)%N ->
  \sum_(0 <= b < n) f b = f a + \sum_(0 <= b < n | b != a) f b.
Proof.
move=> lt_a; have a_iota : a \in index_iota 0 n by rewrite mem_index_iota.
by rewrite (bigD1_seq a) ?iota_uniq.
Qed.

(** X6.  From a stored [GammF], the dephasing rate of state [a] is the sum
    of [GammF[a,b,b,a]] over the other states [b]: the term [b = a] of the
    contraction cancels against [GammF[a,a,a,a]]. *)
Theorem dephasing_full_other_states w G a (o := self_of w) :
  GammF o = Some G -> (a < dim o)%N ->
  exists d w',
    _calc_redfield_dephasing w = Ok (d, w')
    /\ at1 d a = \sum_(0 <= b < dim o | b != a) at4 G a b b a.
Proof.
move=> GE lt_a; rewrite (calc_redfield_dephasing_full GE).
eexists; eexists; split; first by [].
rewrite at1_dephasing_full // (sum_split_diag (fun b => at4 G a b b a) lt_a).
by rewrite opprB addrAC subrr add0r.
Qed.

(** X7.  Without a stored [GammF], the dephasing rate of state [a] is half
    the sum, over the other states [b] and over all sites [i], of
    [X[i,a,b] * X[i,b,a] * Cw[b,a]] with [Cw] the response of the spectral
    density of site [i]; the response at zero frequency [Cw[a,a]] does not
    enter. *)
Theorem dephasing_reduced_other_states w a (o := self_of w) :
  GammF o = None -> SD_id_list o != [::] -> (a < dim o)%N ->
  exists d w',
    _calc_redfield_dephasing w = Ok (d, w')
    /\ at1 d a
       = 2%:R^-1 *
         \sum_(0 <= b < dim o | b != a)
           \sum_(p <- enumerate (SD_id_list o))
             at3 (X o) p.1 a b * at3 (X o) p.1 b a
             * at2 (sd_call (specden o) (freqs_of o) p.2 true) b a.
Proof.
move=> GE; rewrite -set_list_nil => ids_ne lt_a.
rewrite calc_redfield_dephasing_reduced // dephasing_reduced_run -/o.
case idsE: (set_list _) ids_ne => [|Z0 ids] // _.
eexists; eexists; split; first by [].
rewrite at1_reduced_value // -idsE.
set Q := fun b => \sum_(Z <- set_list (SD_id_list o))
                    \sum_(i <- mask_of (SD_id_list o) Z)
                      at3 (X o) i a b * at3 (X o) i b a
                      * at2 (Cw_of o Z true) b a.
rewrite -/(Q a) (sum_split_diag Q lt_a) opprD addrA subrr sub0r mulrN mulNr.
rewrite opprK; congr (_ * _); apply: eq_bigr => b _.
exact: (sum_masks (SD_id_list o)
          (fun i Z => at3 (X o) i a b * at3 (X o) i b a
                      * at2 (Cw_of o Z true) b a)).
Qed.

(** X10.  A second call of [calc_redf_xi] returns the same array as the
    first, from the stored dephasing vector: it changes neither the
    instance nor the log of calls to the evaluator. *)
Theorem xi_second_call w xi w' :
  calc_redf_xi w = Ok (xi, w') -> calc_redf_xi w' = Ok (xi, w').
Proof.
case dE: (dephasing (self_of w)) => [d|].
  by rewrite (calc_redf_xi_stored dE) => -[<- <-]; exact: calc_redf_xi_stored.
case run: (_calc_redfield_dephasing w) => [[d w1]|e].
  rewrite (calc_redf_xi_fresh dE run) => -[<- <-].
  by rewrite (calc_redf_xi_stored (d := d)).
by rewrite (calc_redf_xi_raise dE run).
Qed.

(** X11.  On an instance with nothing stored and an empty [SD_id_list],
    [calc_redf_xi] raises the [UnboundLocalError] of the dephasing
    calculator instead of returning an array. *)
Theorem xi_without_sites_raises w (o := self_of w) :
  dephasing o = None -> GammF o = None -> SD_id_list o = [::] ->
  calc_redf_xi w = Raise (UnboundLocalError GammF_aaaa_var).
Proof.
move=> dE GE lE; apply: calc_redf_xi_raise => //.
by rewrite calc_redfield_dephasing_reduced // dephasing_reduced_run -/o lE.
Qed.

(** X12.  Once [_calc_tensor] has run, [calc_redf_xi] returns on every
    instance, the one without sites included, and does not call the
    evaluator: the dephasing vector comes from the stored [GammF] or was
    stored before. *)
Theorem xi_after_calc_tensor w (o := self_of w) :
  exists w1 xi w2,
    _calc_tensor secular_tol w = Ok (tt, w1)
    /\ sd_log w1 = sd_log w ++ complex_calls o
    /\ calc_redf_xi w1 = Ok (xi, w2)
    /\ sd_log w2 = sd_log w1.
Proof.
rewrite /_calc_tensor /bind calc_redfield_tensor_run -/o /update_self /=.
set R := if secularize o then _ else _.
set G := GammF_accumulated o.
set w1 := World _ _.
case dE: (dephasing o) => [d|].
  exists w1, (contract_a_t d (time (specden o))), w1.
  by split=> //; split=> //; split=> //; rewrite (calc_redf_xi_stored (d := d)).
have run : _calc_redfield_dephasing w1 = Ok (dephasing_full (self_of w1) G, w1).
  exact: calc_redfield_dephasing_full.
exists w1; eexists; eexists; split=> //; split=> //.
by rewrite (calc_redf_xi_fresh _ run).
Qed.

(** X14.  On a well-formed instance, [_calc_rates], [_calc_tensor] and
    [_calc_dephasing] run in this order leave the four attributes stored,
    the dephasing vector being the one of case 1 on the stored [GammF], and
    call the evaluator once for every distinct identifier with [imag=False]
    and then once with [imag=True]: the dephasing calculator adds no
    call. *)
Theorem storing_methods_in_sequence w (o := self_of w) :
  well_formed o ->
  exists w3 R T G,
    bind (@_calc_rates C ident)
      (fun _ => bind (_calc_tensor secular_tol)
         (fun _ => @_calc_dephasing C ident)) w
    = Ok (tt, w3)
    /\ rates (self_of w3) = Some R
    /\ RTen (self_of w3) = Some T
    /\ GammF (self_of w3) = Some G
    /\ dephasing (self_of w3) = Some (dephasing_full o G)
    /\ _calc_redfield_rates w = Ok (R, World o (sd_log w ++ rates_calls o))
    /\ sd_log w3 = sd_log w ++ rates_calls o ++ complex_calls o.
Proof.
move=> _.
rewrite /bind /_calc_rates /bind calc_redfield_rates_run -/o /update_self /=.
rewrite /_calc_tensor /bind calc_redfield_tensor_run /update_self /=.
rewrite /_calc_dephasing /bind.
set G := GammF_accumulated _; set w2 := World _ _.
rewrite (@calc_redfield_dephasing_full _ _ w2 G) //= catA.
by do 4!eexists; split; first by []; do 5!split=> //.
Qed.

End MoreDephasingFacts.

(** ** The further facts at the example instances *)

Section MoreScenarioFacts.

Variable C : numClosedFieldType.

Implicit Types (sd : SpectralDensity C nat) (gaps : matrix C).

Lemma scenario_A_X_of_U sd gaps i p q :
  at3 (X (scenario_A sd gaps)) i p q
  = at2 (U (scenario_A sd gaps)) i p * at2 (U (scenario_A sd gaps)) i q.
Proof.
rewrite /at3 /at2 /at1.
by case: i p q => [|[|i]] [|[|p]] [|[|q]] /=;
   rewrite ?nth_nil ?mulr0 ?mul0r ?mulr1.
Qed.

Lemma scenario_A_U_real sd gaps i p :
  (at2 (U (scenario_A sd gaps)) i p)^* = at2 (U (scenario_A sd gaps)) i p.
Proof.
rewrite /at2 /at1.
by case: i p => [|[|i]] [|[|p]] /=; rewrite ?nth_nil ?rmorph0 ?rmorph1.
Qed.

Lemma hundred_neq0 : (- 100%:R == 0 :> C) = false.
Proof. by rewrite oppr_eq0 pnatr_eq0. Qed.

End MoreScenarioFacts.

(** X1 at scenario A. *)
Lemma rates_sum_over_sites_witness :
  exists R w',
    _calc_redfield_rates (world_A algC) = Ok (R, w')
    /\ at2 R 1 0
       = \sum_(p <- enumerate [:: 0%N; 0%N])
           (at2 (U (instance_A algC)) p.1 1) ^+ 2
           * (at2 (U (instance_A algC)) p.1 0) ^+ 2
           * at2 (sd_call (identity_sd algC) (freqs_of (instance_A algC))
                    p.2 false) 1 0.
Proof.
exact: (@rates_sum_over_sites algC nat (world_A algC) 1 0 isT isT isT).
Defined.

(** X2 at scenario A. *)
Lemma GammF_sum_over_sites_witness :
  exists R w' G,
    _calc_redfield_tensor (0 : algC) (world_A algC) = Ok (R, w')
    /\ GammF (self_of w') = Some G
    /\ at4 G 0 1 0 1
       = 2%:R^-1 * \sum_(p <- enumerate [:: 0%N; 0%N])
                     at3 (X (instance_A algC)) p.1 0 1
                     * at3 (X (instance_A algC)) p.1 0 1
                     * at2 (sd_call (identity_sd algC)
                              (freqs_of (instance_A algC)) p.2 true) 1 0.
Proof.
exact: (@GammF_sum_over_sites algC nat 0 (world_A algC) 0 1 0 1
          isT isT isT isT).
Defined.

(** X3 at scenario A, for the evaluator that returns the frequencies and
    the one that differs from it at frequency zero only. *)
Lemma rates_ignore_diagonal_response_witness :
  exists R w1' w2',
    _calc_redfield_rates (world_A algC) = Ok (R, w1')
    /\ _calc_redfield_rates
         (World (scenario_A
                   (pointwise_sd (fun _ _ x => if x == 0 then 1 else x) [::])
                   (gaps_A algC)) [::])
       = Ok (R, w2').
Proof.
apply: (@rates_ignore_diagonal_response algC nat (world_A algC)
          (World (scenario_A
                    (pointwise_sd (fun _ _ x => if x == 0 then 1 else x) [::])
                    (gaps_A algC)) [::])) => //.
move=> Z [|[|a]] [|[|b]] //= _ _ _; rewrite /at2 /at1 /=.
  by rewrite pnatr_eq0.
by rewrite hundred_neq0.
Defined.

(** X4 at the instance without sites. *)
Lemma rates_without_sites_witness :
  _calc_redfield_rates (world_empty algC)
  = Ok (zeros2 algC 0, world_empty algC).
Proof. exact: (@rates_without_sites algC nat (world_empty algC) erefl). Defined.

(** X5 at the instance without sites. *)
Lemma tensor_without_sites_witness :
  _calc_redfield_tensor (0 : algC) (world_empty algC)
  = Ok (zeros4 algC 0,
        World (set_GammF (zeros4 algC 0) (instance_empty algC)) [::])
  /\ _calc_redfield_dephasing
       (World (set_GammF (zeros4 algC 0) (instance_empty algC)) [::])
     = Ok (mk1 0 (fun _ => 0),
           World (set_GammF (zeros4 algC 0) (instance_empty algC)) [::]).
Proof.
exact: (@tensor_without_sites algC nat 0 (world_empty algC) erefl erefl).
Defined.

(** X6 at scenario A with the tensor of zeros stored. *)
Lemma dephasing_full_other_states_witness :
  exists d w',
    _calc_redfield_dephasing
      (World (set_GammF (zeros4 algC 2) (instance_A algC)) [::])
    = Ok (d, w')
    /\ at1 d 0 = \sum_(0 <= b < 2 | b != 0%N) at4 (zeros4 algC 2) 0 b b 0.
Proof.
exact: (@dephasing_full_other_states algC nat
          (World (set_GammF (zeros4 algC 2) (instance_A algC)) [::])
          (zeros4 algC 2) 0 erefl isT).
Defined.

(** X7 at scenario A. *)
Lemma dephasing_reduced_other_states_witness :
  exists d w',
    _calc_redfield_dephasing (world_A algC) = Ok (d, w')
    /\ at1 d 0
       = 2%:R^-1 *
         \sum_(0 <= b < 2 | b != 0%N)
           \sum_(p <- enumerate [:: 0%N; 0%N])
             at3 (X (instance_A algC)) p.1 0 b
             * at3 (X (instance_A algC)) p.1 b 0
             * at2 (sd_call (identity_sd algC) (freqs_of (instance_A algC))
                      p.2 true) b 0.
Proof.
exact: (@dephasing_reduced_other_states algC nat (world_A algC) 0
          erefl isT isT).
Defined.

(** X8 at scenario A. *)
Lemma relaxation_tensor_trace_witness :
  exists R w',
    _calc_redfield_tensor (0 : algC) (world_A algC) = Ok (R, w')
    /\ \sum_(0 <= a < 2) at4 R a a 0 1 = 0.
Proof.
apply: (@relaxation_tensor_trace algC nat 0 (world_A algC) 0 1) => //.
exact: scenario_A_X_sym.
Defined.

(** X9 at two tensors of zeros. *)
Lemma from_GammaF_to_RTen_additive_witness :
  at4 (_from_GammaF_to_RTen (instance_A algC)
         (tadd 2 (zeros4 algC 2) (zeros4 algC 2))) 0 1 0 1
  = at4 (_from_GammaF_to_RTen (instance_A algC) (zeros4 algC 2)) 0 1 0 1
    + at4 (_from_GammaF_to_RTen (instance_A algC) (zeros4 algC 2)) 0 1 0 1.
Proof.
exact: (@from_GammaF_to_RTen_additive algC nat (instance_A algC)
          (zeros4 algC 2) (zeros4 algC 2) 0 1 0 1 isT isT isT isT).
Defined.

(** X10 at scenario A, where the first call computes the vector. *)
Lemma xi_second_call_witness :
  calc_redf_xi
    (World (set_dephasing (reduced_value (instance_A algC) 0%N [::])
              (instance_A algC))
       [:: SDCall (freqs_of (instance_A algC)) 0%N true])
  = Ok (contract_a_t (reduced_value (instance_A algC) 0%N [::]) [:: 0; 1],
        World (set_dephasing (reduced_value (instance_A algC) 0%N [::])
                 (instance_A algC))
          [:: SDCall (freqs_of (instance_A algC)) 0%N true]).
Proof.
exact: (@xi_second_call algC nat (world_A algC) _ _ erefl).
Defined.

(** X11 at the instance without sites. *)
Lemma xi_without_sites_raises_witness :
  calc_redf_xi (world_empty algC) = Raise (UnboundLocalError GammF_aaaa_var).
Proof.
exact: (@xi_without_sites_raises algC nat (world_empty algC) erefl erefl erefl).
Defined.

(** X13 at scenario A. *)
Lemma tensor_population_block_is_rate_witness :
  exists R w1 T w2,
    _calc_redfield_rates (world_A algC) = Ok (R, w1)
    /\ _calc_redfield_tensor (0 : algC) (world_A algC) = Ok (T, w2)
    /\ at4 T 1 1 0 0 = at2 R 1 0.
Proof.
apply: (@tensor_population_block_is_rate algC nat 0 (world_A algC) 1 0) => //.
- exact: scenario_A_X_of_U.
- exact: scenario_A_U_real.
- by move=> Z; rewrite /at2 /at1 /= rmorphN rmorph_nat half_double.
Defined.

(** X14 at scenario A. *)
Lemma storing_methods_in_sequence_witness :
  well_formed (instance_A algC)
  /\ exists w3 R T G,
       bind (@_calc_rates algC nat)
         (fun _ => bind (_calc_tensor (0 : algC))
            (fun _ => @_calc_dephasing algC nat)) (world_A algC)
       = Ok (tt, w3)
       /\ rates (self_of w3) = Some R
       /\ RTen (self_of w3) = Some T
       /\ GammF (self_of w3) = Some G
       /\ dephasing (self_of w3) = Some (dephasing_full (instance_A algC) G)
       /\ _calc_redfield_rates (world_A algC)
          = Ok (R, World (instance_A algC)
                     ([::] ++ rates_calls (instance_A algC)))
       /\ sd_log w3
          = [::] ++ rates_calls (instance_A algC)
                 ++ complex_calls (instance_A algC).
Proof.
split; first exact: instance_A_well_formed.
exact: (@storing_methods_in_sequence algC nat 0 (world_A algC)
          (instance_A_well_formed algC)).
Defined.
